(** * The computation graph of package [ag] (pkg/ml/ag/graph.go)

    A shallow embedding of the graph arena: identity issuance, the node
    constructors, the incremental depth bookkeeping done by [NewOperator],
    [Reset] and [groupNodesByDepth], followed by the properties that the
    design document states about them.

    Conventions.
    - Go's [int64] identities and [int] depths are integers of [Z].  The
      counter [maxId] always equals the arena length and a depth never
      exceeds it, and a Go slice cannot hold 2^63 records, so the 64-bit
      wrap-around of [atomic.AddInt64] and of [depth++] is never reached
      and is not written out.
    - A slice indexed out of range panics.  A panic is an outcome of its
      own, carrying the graph as the panic leaves it (the mutex is released
      by the deferred [Unlock], so the graph stays observable).
    - The mutex serialises the constructors; a constructor is modelled as
      one atomic step on the graph.
    - Every [*nodeInfo] of the arena is allocated by the constructor that
      appends it and is reachable through this one slot only, so the arena
      is a list of records and [g.nodes[i].depth++] is an update of slot
      [i]. *)

From stdpp Require Import base tactics option numbers list sets relations strings.
From Stdlib Require Import ZArith Lia Ascii.

Local Open Scope Z_scope.
Local Set Warnings "-clear-no-such-hyp".

(** Go's [xs[i]]: defined for [0 <= i < len(xs)] only. *)
Definition index {A : Type} (l : list A) (i : Z) : option A :=
  if decide (0 ≤ i) then l !! Z.to_nat i else None.

(** Go's [len(xs)] as an [int]. *)
Definition len {A : Type} (l : list A) : Z := Z.of_nat (length l).

(** [func maxDepth(a, b int) int] *)
Definition maxDepth (a b : Z) : Z :=
  if decide (a > b) then a else b.

Section Graph.

(** ** External collaborators

    Packages [mat] and [fn] and the files of package [ag] that declare
    the node variants are not part of the verified sources; what
    graph.go uses of them is taken as a parameter. *)

(** [mat.Matrix], Go's [float64] and [mat.NewScalar]. *)
Context {Matrix float64 : Type}.
Variable mat_NewScalar : float64 → Matrix.

(** [fn.Function] and its method [Forward()]. *)
Context {Function : Type}.
Variable Forward : Function → Matrix.

(** [GradValue], and what the method [RequiresGrad()] of a wrapper
    answers for its wrapped value and its [wrapGrad] flag. *)
Context {GradValue : Type}.
Variable Wrapper_RequiresGrad : GradValue → bool → bool.

(** ** Data model *)

(** The three node variants, with the fields that the struct literals of
    graph.go set.  The back pointer [graph: g] is left out: no code of
    graph.go reads it. *)
Record VariableT := mkVariable {
  v_id : Z;
  v_value : Matrix;
  v_grad : option Matrix;
  v_hasGrad : bool;
  v_requiresGrad : bool
}.

Record Operator := mkOperator {
  o_id : Z;
  o_function : Function;
  o_value : Matrix;
  o_grad : option Matrix;
  o_hasGrad : bool;
  o_requiresGrad : bool
}.

Record Wrapper := mkWrapper {
  w_GradValue : GradValue;
  w_id : Z;
  w_wrapGrad : bool
}.

(** The interface [Node], closed over its three implementations. *)
Inductive Node :=
| NVariable (v : VariableT)
| NOperator (o : Operator)
| NWrapper (w : Wrapper).

(** Modelled from the spec: the method [Id()] of the three variants,
    declared outside graph.go; it answers the identity the constructor
    stored. *)
Definition Id (n : Node) : Z :=
  match n with
  | NVariable v => v_id v
  | NOperator o => o_id o
  | NWrapper w => w_id w
  end.

(** Modelled from the spec: the method [RequiresGrad()], declared outside
    graph.go; a variable and an operator answer the flag fixed at
    creation, a wrapper answers by its wrapped value. *)
Definition RequiresGrad (n : Node) : bool :=
  match n with
  | NVariable v => v_requiresGrad v
  | NOperator o => o_requiresGrad o
  | NWrapper w => Wrapper_RequiresGrad (w_GradValue w) (w_wrapGrad w)
  end.

Definition isOperator (n : Node) : bool :=
  match n with NOperator _ => true | _ => false end.

(** [type nodeInfo struct] *)
Record nodeInfo := mkNodeInfo {
  node : Node;
  depth : Z;
  descendants : list Z
}.

(** [type Graph struct], without the mutex. *)
Record Graph := mkGraph {
  g_maxId : Z;
  g_maxDepth : Z;
  g_nodes : list nodeInfo
}.

(** What a call leaves behind: it returns, or it panics. *)
Inductive outcome (A : Type) :=
| Returned (g : Graph) (a : A)
| Panicked (g : Graph).
Global Arguments Returned {A} g a.
Global Arguments Panicked {A} g.

(** ** Operations *)

(** [func NewGraph() *Graph] *)
Definition NewGraph : Graph :=
  {| g_maxId := 0; g_maxDepth := 0; g_nodes := [] |}.

(** [func (g *Graph) Reset()] *)
Definition Reset (g : Graph) : Graph :=
  {| g_maxId := 0; g_maxDepth := 0; g_nodes := [] |}.

(** [func (g *Graph) newId() int64]:
    [atomic.AddInt64(&g.maxId, 1) - 1]. *)
Definition newId (g : Graph) : Z * Graph :=
  let g' := {| g_maxId := g_maxId g + 1;
               g_maxDepth := g_maxDepth g;
               g_nodes := g_nodes g |} in
  (g_maxId g' - 1, g').

(** [g.nodes = append(g.nodes, ...)] *)
Definition appendNode (g : Graph) (ni : nodeInfo) : Graph :=
  {| g_maxId := g_maxId g;
     g_maxDepth := g_maxDepth g;
     g_nodes := g_nodes g ++ [ni] |}.

(** [func (g *Graph) NewVariable(value mat.Matrix, requiresGrad bool)] *)
Definition NewVariable (value : Matrix) (requiresGrad : bool) (g : Graph)
  : outcome VariableT :=
  let '(newId, g) := newId g in
  let newNode := {| v_id := newId; v_value := value; v_grad := None;
                    v_hasGrad := false; v_requiresGrad := requiresGrad |} in
  Returned
    (appendNode g {| node := NVariable newNode; depth := 0;
                     descendants := [newId] |})
    newNode.

(** [func (g *Graph) NewScalar(value float64) *Variable] *)
Definition NewScalar (value : float64) (g : Graph) : outcome VariableT :=
  NewVariable (mat_NewScalar value) false g.

(** [func requireGrad(ns []Node) bool] *)
Fixpoint requireGrad (ns : list Node) : bool :=
  match ns with
  | [] => false
  | n :: ns => if RequiresGrad n then true else requireGrad ns
  end.

(** [func (g *Graph) sumDescendants(ns []Node) int]; [None] is the
    out-of-range panic of [g.nodes[n.Id()]]. *)
Fixpoint sumDescendants_from (g : Graph) (ns : list Node) (sum : Z)
  : option Z :=
  match ns with
  | [] => Some sum
  | n :: ns =>
      match index (g_nodes g) (Id n) with
      | Some ni => sumDescendants_from g ns (sum + len (descendants ni))
      | None => None
      end
  end.

Definition sumDescendants (g : Graph) (ns : list Node) : option Z :=
  sumDescendants_from g ns 0.

(** The variables that the two nested loops of [NewOperator] update: the
    graph, [mark] and [descendants]. *)
Record loopState := mkLoop {
  l_graph : Graph;
  l_mark : list bool;
  l_descendants : list Z
}.

(** A loop iteration goes on to the next one, or panics. *)
Inductive loop :=
| Continue (s : loopState)
| Panic (g : Graph).

Definition andThen (r : loop) (k : loopState → loop) : loop :=
  match r with
  | Continue s => k s
  | Panic g => Panic g
  end.

(** The body of the inner loop, lines 97 to 102. *)
Definition visit (s : loopState) (descendantId : Z) : loop :=
  let g := l_graph s in
  match index (l_mark s) descendantId with
  | None => Panic g
  | Some true => Continue s
  | Some false =>
      let mark := <[Z.to_nat descendantId := true]> (l_mark s) in
      match index (g_nodes g) descendantId with
      | None => Panic g
      | Some ni =>
          let ni := {| node := node ni; depth := depth ni + 1;
                       descendants := descendants ni |} in
          let g := {| g_maxId := g_maxId g;
                      g_maxDepth := g_maxDepth g;
                      g_nodes := <[Z.to_nat descendantId := ni]> (g_nodes g) |} in
          let g := {| g_maxId := g_maxId g;
                      g_maxDepth := maxDepth (depth ni) (g_maxDepth g);
                      g_nodes := g_nodes g |} in
          Continue {| l_graph := g; l_mark := mark;
                      l_descendants := l_descendants s ++ [descendantId] |}
      end
  end.

(** [for _, descendantId := range g.nodes[o.Id()].descendants] *)
Fixpoint forDescendants (ds : list Z) (s : loopState) : loop :=
  match ds with
  | [] => Continue s
  | d :: ds => andThen (visit s d) (forDescendants ds)
  end.

(** [for _, o := range operands] *)
Fixpoint forOperands (operands : list Node) (s : loopState) : loop :=
  match operands with
  | [] => Continue s
  | o :: os =>
      match index (g_nodes (l_graph s)) (Id o) with
      | None => Panic (l_graph s)
      | Some ni => andThen (forDescendants (descendants ni) s) (forOperands os)
      end
  end.

(** [func (g *Graph) NewOperator(f fn.Function, operands ...Node)] *)
Definition NewOperator (f : Function) (operands : list Node) (g : Graph)
  : outcome Operator :=
  let value := Forward f in
  let '(newId, g) := newId g in
  let newNode := {| o_id := newId; o_function := f; o_value := value;
                    o_grad := None; o_hasGrad := false;
                    o_requiresGrad := requireGrad operands |} in
  match sumDescendants g operands with
  | None => Panicked g
  | Some _ =>
      let mark := replicate (length (g_nodes g)) false in
      match forOperands operands
              {| l_graph := g; l_mark := mark; l_descendants := [] |} with
      | Panic g => Panicked g
      | Continue s =>
          let descendants := l_descendants s ++ [newId] in
          Returned
            (appendNode (l_graph s)
               {| node := NOperator newNode; depth := 0;
                  descendants := descendants |})
            newNode
      end
  end.

(** [func (g *Graph) NewWrap(value GradValue) *Wrapper] *)
Definition NewWrap (value : GradValue) (g : Graph) : outcome Wrapper :=
  let '(newId, g) := newId g in
  let newNode := {| w_GradValue := value; w_id := newId;
                    w_wrapGrad := true |} in
  Returned
    (appendNode g {| node := NWrapper newNode; depth := 0;
                     descendants := [newId] |})
    newNode.

(** [func (g *Graph) NewWrapNoGrad(value GradValue) *Wrapper] *)
Definition NewWrapNoGrad (value : GradValue) (g : Graph) : outcome Wrapper :=
  let '(newId, g) := newId g in
  let newNode := {| w_GradValue := value; w_id := newId;
                    w_wrapGrad := false |} in
  Returned
    (appendNode g {| node := NWrapper newNode; depth := 0;
                     descendants := [newId] |})
    newNode.

(** [func (g *Graph) groupNodesByDepth() [][]Node]; [None] is a panic of
    [make] (negative length) or of [out[n.depth]]. *)
Fixpoint fillBuckets (ns : list nodeInfo) (out : list (list Node))
  : option (list (list Node)) :=
  match ns with
  | [] => Some out
  | n :: ns =>
      match index out (depth n) with
      | None => None
      | Some bucket =>
          fillBuckets ns (<[Z.to_nat (depth n) := bucket ++ [node n]]> out)
      end
  end.

Definition groupNodesByDepth (g : Graph) : option (list (list Node)) :=
  if decide (0 ≤ g_maxDepth g + 1) then
    fillBuckets (g_nodes g) (replicate (Z.to_nat (g_maxDepth g + 1)) [])
  else None.

(** ** Sequences of constructor calls *)

Inductive call :=
| CallNewVariable (value : Matrix) (requiresGrad : bool)
| CallNewScalar (value : float64)
| CallNewOperator (f : Function) (operands : list Node)
| CallNewWrap (value : GradValue)
| CallNewWrapNoGrad (value : GradValue).

Definition asNode {A : Type} (inj : A → Node) (r : outcome A) : outcome Node :=
  match r with
  | Returned g a => Returned g (inj a)
  | Panicked g => Panicked g
  end.

(** One call, returning the new node as the interface value [Node]. *)
Definition exec (c : call) (g : Graph) : outcome Node :=
  match c with
  | CallNewVariable value requiresGrad =>
      asNode NVariable (NewVariable value requiresGrad g)
  | CallNewScalar value => asNode NVariable (NewScalar value g)
  | CallNewOperator f operands => asNode NOperator (NewOperator f operands g)
  | CallNewWrap value => asNode NWrapper (NewWrap value g)
  | CallNewWrapNoGrad value => asNode NWrapper (NewWrapNoGrad value g)
  end.

(** The calls of [cs] one after the other; the nodes they return are
    collected in call order.  A panic ends the sequence. *)
Fixpoint run_from (cs : list call) (g : Graph) (made : list Node)
  : outcome (list Node) :=
  match cs with
  | [] => Returned g made
  | c :: cs =>
      match exec c g with
      | Returned g n => run_from cs g (made ++ [n])
      | Panicked g => Panicked g
      end
  end.

Definition run (cs : list call) (g : Graph) : outcome (list Node) :=
  run_from cs g [].

(** ** The backward pass

    The files of package [ag] that hold [Backward], [BackwardAll] and
    [PropagateGrad], and the kernels of package [fn], are not part of the
    verified sources; only calls of them are, in the tests of the models.
    This part follows sections 4.3 and 6 of the design document, on top of
    [groupNodesByDepth]. *)

(** The sum of two gradients, [mat.Matrix] values. *)
Variable mat_Add : Matrix → Matrix → Matrix.

(** Modelled from the spec: the operand nodes a kernel was built on, the
    "ordered list of operand node references" of an operator. *)
Variable operandsOf : Function → list Node.

(** Modelled from the spec: the kernel capability
    "Backward(outputGradient) -> per-operand gradient contributions", one
    contribution per operand, in operand order. *)
Variable kernelBackward : Function → Matrix → list Matrix.

Context `{!EqDecision GradValue}.

(** Modelled from the spec: where a gradient buffer lives.  A variable and
    an operator own theirs; a wrapper forwards to "the wrapped value's own
    gradient buffer", which two wrappers of one value share. *)
Inductive slot :=
| NodeSlot (i : Z)
| ExternalSlot (value : GradValue).

Global Instance slot_eq_dec : EqDecision slot.
Proof. solve_decision. Defined.

(** Modelled from the spec: the gradient buffers, "set to zero/absent until
    first write".  The graph and its clients hold the same node objects, so
    the buffers are kept in one store, addressed by where they live, and
    not in the copies of the node records. *)
Definition buffers : Type := slot → option Matrix.

Definition noGradients : buffers := λ _, None.

(** Modelled from the spec: the buffer a node accumulates into.  A node
    whose [requiresGrad] is false has none ("no buffer allocated"), and a
    wrapper without [wrapGrad] drops what is written to it. *)
Definition slotOf (n : Node) : option slot :=
  match n with
  | NVariable v =>
      if v_requiresGrad v then Some (NodeSlot (v_id v)) else None
  | NOperator o =>
      if o_requiresGrad o then Some (NodeSlot (o_id o)) else None
  | NWrapper w =>
      if w_wrapGrad w then Some (ExternalSlot (w_GradValue w)) else None
  end.

(** Modelled from the spec: the "current gradient (if any)" of a node. *)
Definition gradOf (n : Node) (b : buffers) : option Matrix :=
  match slotOf n with
  | Some s => b s
  | None => None
  end.

(** Modelled from the spec: a contribution is "summed, not overwritten". *)
Definition accumulated (old : option Matrix) (c : Matrix) : Matrix :=
  match old with
  | Some x => mat_Add x c
  | None => c
  end.

Definition accumulate (b : buffers) (s : slot) (c : Matrix) : buffers :=
  λ s', if decide (s' = s) then Some (accumulated (b s) c) else b s'.

(** Modelled from the spec: [PropagateGrad], the "operation to externally
    push a gradient contribution" into a node; seeds and kernel
    contributions go through it. *)
Definition PropagateGrad (n : Node) (c : Matrix) (b : buffers) : buffers :=
  match slotOf n with
  | Some s => accumulate b s c
  | None => b
  end.

(** Modelled from the spec: step 3 for one operator, "that has a non-empty
    (already-written) gradient buffer, invoke its kernel's
    Backward(currentGradient), which computes and accumulates partial
    gradients into each operand's buffer"; step 4 skips an operator whose
    [requiresGrad] is false. *)
Definition backwardOperator (o : Operator) (b : buffers) : buffers :=
  if o_requiresGrad o then
    match b (NodeSlot (o_id o)) with
    | Some gy =>
        foldl (λ b ac, PropagateGrad (fst ac) (snd ac) b) b
              (zip (operandsOf (o_function o))
                   (kernelBackward (o_function o) gy))
    | None => b
    end
  else b.

Definition backwardNode (b : buffers) (n : Node) : buffers :=
  match n with
  | NOperator o => backwardOperator o b
  | _ => b
  end.

(** Modelled from the spec: steps 2 and 3, "partition all nodes by level
    into buckets" and "process buckets in ascending level order";
    [BackwardAll] is the pass without a seed of its own. *)
Definition BackwardAll (g : Graph) (b : buffers) : buffers :=
  match groupNodesByDepth g with
  | Some buckets => foldl (λ b bucket, foldl backwardNode b bucket) b buckets
  | None => b
  end.

(** Modelled from the spec: [backward(outputNode, seedGradient)], step 1
    and then the pass. *)
Definition Backward (g : Graph) (out : Node) (seed : Matrix) (b : buffers)
  : buffers :=
  BackwardAll g (PropagateGrad out seed b).

(** The buffers of the operators of the arena. *)
Definition operatorSlot (g : Graph) (s : slot) : bool :=
  match s with
  | NodeSlot i =>
      match index (g_nodes g) i with
      | Some ni => isOperator (node ni)
      | None => false
      end
  | ExternalSlot _ => false
  end.

(** Clearing the gradients of the operators and keeping those of the
    leaves. *)
Definition clearOperators (g : Graph) (b : buffers) : buffers :=
  λ s, if operatorSlot g s then None else b s.

(** The buffer of every operator among [ns] is empty in [b]. *)
Definition operatorsEmpty (ns : list Node) (b : buffers) : Prop :=
  ∀ o, NOperator o ∈ ns → b (NodeSlot (o_id o)) = None.

(** What three passes over the same nodes keep when the first is seeded
    with [g1] over [b0], the second with [g2] over [b0'] and the third with
    the sum over [b0]: a buffer is untouched in all three, or it has
    received [a], [b] and their sum. *)
Definition additive (b0 b0' A B C : buffers) : Prop :=
  ∀ s, (A s = b0 s ∧ B s = b0' s ∧ C s = b0 s) ∨
       (∃ a b, A s = Some (accumulated (b0 s) a) ∧
               B s = Some (accumulated (b0' s) b) ∧
               C s = Some (accumulated (b0 s) (mat_Add a b))).

(** ** Vocabulary of the properties *)

(** Inside the arena. *)
Definition inArena (g : Graph) (i : Z) : Prop := 0 ≤ i < len (g_nodes g).

(** The [depth] and the [descendants] recorded for an identity. *)
Definition depthAt (g : Graph) (i : Z) : Z :=
  default 0 (depth <$> index (g_nodes g) i).

Definition descendantsAt (g : Graph) (i : Z) : list Z :=
  default [] (descendants <$> index (g_nodes g) i).

(** [depth++] on one record. *)
Definition incr (ni : nodeInfo) : nodeInfo :=
  {| node := node ni; depth := depth ni + 1; descendants := descendants ni |}.

(** The record of slot [k] after [depth++] on the records of [U]. *)
Definition bumped (U : list Z) (k : nat) (ni : nodeInfo) : nodeInfo :=
  if decide (Z.of_nat k ∈ U) then incr ni else ni.

(** The arena after [depth++] on every record whose identity is in [U]. *)
Definition bump (U : list Z) (ns : list nodeInfo) : list nodeInfo :=
  imap (bumped U) ns.

(** Adding an identity to a list without repeating it. *)
Definition addNew (acc : list Z) (d : Z) : list Z :=
  if decide (d ∈ acc) then acc else acc ++ [d].

(** The union of the operands' [descendants], every identity once, in the
    order of first occurrence. *)
Definition unionDescendants (g : Graph) (operands : list Node) : list Z :=
  foldl (λ acc o, foldl addNew acc (descendantsAt g (Id o))) [] operands.

(** The largest of [m] and the numbers of [l]. *)
Definition maxOf (m : Z) (l : list Z) : Z := foldr Z.max m l.

(** What the two loops of [NewOperator] maintain, [ns] being the arena, [m]
    the [maxDepth] and [i] the [maxId] they started from. *)
Record coherent (ns : list nodeInfo) (m i : Z) (s : loopState) : Prop := {
  coh_maxId : g_maxId (l_graph s) = i;
  coh_nodes : g_nodes (l_graph s) = bump (l_descendants s) ns;
  coh_maxDepth :
    g_maxDepth (l_graph s) =
    maxOf m ((λ d, default 0 (depth <$> index ns d) + 1) <$> l_descendants s);
  coh_mark_length : length (l_mark s) = length ns;
  coh_mark : ∀ k, (k < length ns)%nat →
    l_mark s !! k = Some (bool_decide (Z.of_nat k ∈ l_descendants s));
  coh_NoDup : NoDup (l_descendants s);
  coh_range : Forall (λ d, 0 ≤ d < len ns) (l_descendants s)
}.

(** Every identity listed in a record's [descendants] is inside the
    arena. *)
Definition descendantsInArena (ns : list nodeInfo) : Prop :=
  ∀ k ni, ns !! k = Some ni → Forall (λ d, 0 ≤ d < len ns) (descendants ni).

(** The operator that [NewOperator f operands] builds on [g], and the graph
    it leaves. *)
Definition newOperator (f : Function) (operands : list Node) (g : Graph)
  : Operator :=
  {| o_id := g_maxId g; o_function := f; o_value := Forward f;
     o_grad := None; o_hasGrad := false;
     o_requiresGrad := existsb RequiresGrad operands |}.

(** The graph after a constructor has bumped the records of [U] and
    appended the record of the new node [n]. *)
Definition extend (U : list Z) (n : Node) (g : Graph) : Graph :=
  {| g_maxId := g_maxId g + 1;
     g_maxDepth := maxOf (g_maxDepth g) ((λ d, depthAt g d + 1) <$> U);
     g_nodes := bump U (g_nodes g) ++
                [{| node := n; depth := 0;
                    descendants := U ++ [g_maxId g] |}] |}.

Definition afterNewOperator (f : Function) (operands : list Node) (g : Graph)
  : Graph :=
  extend (unionDescendants g operands) (NOperator (newOperator f operands g)) g.

(** The records that list [i] among their [descendants], [i]'s own record
    apart. *)
Definition consumerRecords (g : Graph) (i : Z) : list nodeInfo :=
  filter (λ m, i ∈ descendants m ∧ Id (node m) ≠ i) (g_nodes g).

(** The invariant of the arena. *)
Record wf (g : Graph) : Prop := {
  wf_maxId : g_maxId g = len (g_nodes g);
  wf_id : ∀ k ni, g_nodes g !! k = Some ni → Id (node ni) = Z.of_nat k;
  wf_self : ∀ k ni, g_nodes g !! k = Some ni → Z.of_nat k ∈ descendants ni;
  wf_NoDup : ∀ k ni, g_nodes g !! k = Some ni → NoDup (descendants ni);
  wf_range : ∀ k ni d,
    g_nodes g !! k = Some ni → d ∈ descendants ni → 0 ≤ d ≤ Z.of_nat k;
  wf_closed : ∀ k ni j nj,
    g_nodes g !! k = Some ni → g_nodes g !! j = Some nj →
    Z.of_nat j ∈ descendants ni → descendants nj ⊆ descendants ni;
  wf_leaf : ∀ k ni,
    g_nodes g !! k = Some ni → isOperator (node ni) = false →
    descendants ni = [Z.of_nat k];
  wf_maxDepth : g_maxDepth g = maxOf 0 (depth <$> g_nodes g);
  wf_count : ∀ k ni,
    g_nodes g !! k = Some ni →
    depth ni = len (consumerRecords g (Z.of_nat k));
  wf_order : ∀ k ni j nj,
    g_nodes g !! k = Some ni → g_nodes g !! j = Some nj →
    Z.of_nat j ∈ descendants ni → j ≠ k → depth ni < depth nj
}.

(** ** Construction histories *)

(** The identities a call lists as operands. *)
Definition operandIds (c : call) : list Z :=
  match c with
  | CallNewOperator _ operands => Id <$> operands
  | _ => []
  end.

(** [a] is an operand of the node [o]: the call that built [o] lists it. *)
Definition operandOf (cs : list call) (a o : Z) : Prop :=
  ∃ c, index cs o = Some c ∧ a ∈ operandIds c.

(** The dependency closure: [x] is [y], or an operand of [x] depends on
    [y]. *)
Definition dependsOn (cs : list call) : relation Z :=
  rtc (λ x y, operandOf cs y x).

(** [o] consumes [n]: [n] is in the dependency closure of an operand of
    [o]. *)
Definition consumes (cs : list call) (o n : Z) : Prop :=
  ∃ a, operandOf cs a o ∧ dependsOn cs a n.

(** The payload that a call gives the node it builds. *)
Definition builds (c : call) (n : Node) : Prop :=
  match c, n with
  | CallNewVariable value requiresGrad, NVariable v =>
      v_value v = value ∧ v_requiresGrad v = requiresGrad
  | CallNewScalar value, NVariable v =>
      v_value v = mat_NewScalar value ∧ v_requiresGrad v = false
  | CallNewOperator f operands, NOperator o =>
      o_function o = f ∧ o_value o = Forward f ∧
      o_requiresGrad o = existsb RequiresGrad operands
  | CallNewWrap value, NWrapper w =>
      w_GradValue w = value ∧ w_wrapGrad w = true
  | CallNewWrapNoGrad value, NWrapper w =>
      w_GradValue w = value ∧ w_wrapGrad w = false
  | _, _ => False
  end.

(** The arena records what the history says. *)
Record traced (cs : list call) (g : Graph) : Prop := {
  tr_length : length cs = length (g_nodes g);
  tr_builds : ∀ k c ni,
    cs !! k = Some c → g_nodes g !! k = Some ni → builds c (node ni);
  tr_operands : ∀ k c a,
    cs !! k = Some c → a ∈ operandIds c → 0 ≤ a < Z.of_nat k;
  tr_descendants : ∀ k c ni,
    cs !! k = Some c → g_nodes g !! k = Some ni →
    ∀ d, d ∈ descendants ni ↔
         d = Z.of_nat k ∨ ∃ a, a ∈ operandIds c ∧ d ∈ descendantsAt g a
}.

(** The node a call builds on [g], and the identities whose records it
    bumps. *)
Definition builtNode (c : call) (g : Graph) : Node :=
  match c with
  | CallNewVariable value requiresGrad =>
      NVariable {| v_id := g_maxId g; v_value := value; v_grad := None;
                   v_hasGrad := false; v_requiresGrad := requiresGrad |}
  | CallNewScalar value =>
      NVariable {| v_id := g_maxId g; v_value := mat_NewScalar value;
                   v_grad := None; v_hasGrad := false;
                   v_requiresGrad := false |}
  | CallNewOperator f operands => NOperator (newOperator f operands g)
  | CallNewWrap value =>
      NWrapper {| w_GradValue := value; w_id := g_maxId g;
                  w_wrapGrad := true |}
  | CallNewWrapNoGrad value =>
      NWrapper {| w_GradValue := value; w_id := g_maxId g;
                  w_wrapGrad := false |}
  end.

Definition touched (c : call) (g : Graph) : list Z :=
  match c with
  | CallNewOperator _ operands => unionDescendants g operands
  | _ => []
  end.

(** The graph in which a call that panics leaves [g]. *)
Definition afterPanic (g : Graph) : Graph :=
  {| g_maxId := g_maxId g + 1; g_maxDepth := g_maxDepth g;
     g_nodes := g_nodes g |}.

(** Sequencing of calls in a client program: a panic ends it. *)
Definition bind {A B : Type} (r : outcome A) (k : Graph → A → outcome B)
  : outcome B :=
  match r with
  | Returned g a => k g a
  | Panicked g => Panicked g
  end.

(** The diamond of the design document on a new graph: variables [a] and
    [b], then [c = f(a, b)], then [d = h(a, c)]. *)
Definition diamond (va vb : Matrix) (ra rb : bool) (f h : Function)
  : outcome (VariableT * VariableT * Operator * Operator) :=
  bind (NewVariable va ra NewGraph) (λ g a,
  bind (NewVariable vb rb g) (λ g b,
  bind (NewOperator f [NVariable a; NVariable b] g) (λ g c,
  bind (NewOperator h [NVariable a; NOperator c] g) (λ g d,
  Returned g (a, b, c, d))))).

(** ** Slices, maxima and the bumped arena *)

Lemma index_of_nat {A : Type} (l : list A) (k : nat) :
  index l (Z.of_nat k) = l !! k.
Proof.
  unfold index. rewrite decide_True by lia. by rewrite Nat2Z.id.
Qed.

Lemma index_Some {A : Type} (l : list A) (i : Z) (x : A) :
  index l i = Some x ↔ 0 ≤ i ∧ l !! Z.to_nat i = Some x.
Proof.
  unfold index. destruct (decide (0 ≤ i)) as [H0|H0].
  - split; [by intros ? | by intros [_ ?]].
  - split; [done | by intros [? _]].
Qed.

Lemma index_is_Some {A : Type} (l : list A) (i : Z) :
  is_Some (index l i) ↔ 0 ≤ i < len l.
Proof.
  unfold index, len. case_decide.
  - rewrite lookup_lt_is_Some. lia.
  - split; [intros [? ?]; done | lia].
Qed.


Lemma maxDepth_max (a b : Z) : maxDepth a b = Z.max a b.
Proof. unfold maxDepth. case_decide; lia. Qed.

Lemma maxOf_snoc (m : Z) (l : list Z) (x : Z) :
  maxOf m (l ++ [x]) = Z.max x (maxOf m l).
Proof.
  unfold maxOf. induction l as [|y l IH]; simpl; [done|].
  rewrite IH. lia.
Qed.

Lemma maxOf_fmap_snoc (f : Z → Z) (m : Z) (l : list Z) (x : Z) :
  maxOf m (f <$> l ++ [x]) = Z.max (f x) (maxOf m (f <$> l)).
Proof. rewrite fmap_app. apply maxOf_snoc. Qed.

Lemma maxOf_ge_init (m : Z) (l : list Z) : m ≤ maxOf m l.
Proof. unfold maxOf. induction l; simpl; lia. Qed.

Lemma maxOf_ge_elem (m : Z) (l : list Z) (x : Z) : x ∈ l → x ≤ maxOf m l.
Proof.
  unfold maxOf. induction 1; simpl; lia.
Qed.

Lemma maxOf_attained (m : Z) (l : list Z) :
  maxOf m l = m ∨ maxOf m l ∈ l.
Proof.
  unfold maxOf. induction l as [|y l [IH|IH]]; simpl; [by left| |].
  - destruct (Z.max_spec y (foldr Z.max m l)) as [[_ ->]|[_ ->]];
      [by left | right; left].
  - right. destruct (Z.max_spec y (foldr Z.max m l)) as [[_ ->]|[_ ->]];
      [by right | left].
Qed.

Lemma bump_lookup (U : list Z) (ns : list nodeInfo) (k : nat) :
  bump U ns !! k = bumped U k <$> ns !! k.
Proof. apply list_lookup_imap. Qed.

Lemma node_bumped (U : list Z) (k : nat) (ni : nodeInfo) :
  node (bumped U k ni) = node ni.
Proof. unfold bumped. by case_decide. Qed.

Lemma descendants_bumped (U : list Z) (k : nat) (ni : nodeInfo) :
  descendants (bumped U k ni) = descendants ni.
Proof. unfold bumped. by case_decide. Qed.

Lemma depth_bumped (U : list Z) (k : nat) (ni : nodeInfo) :
  depth (bumped U k ni) =
  depth ni + (if decide (Z.of_nat k ∈ U) then 1 else 0).
Proof. unfold bumped. case_decide; simpl; lia. Qed.

Lemma bump_length (U : list Z) (ns : list nodeInfo) :
  length (bump U ns) = length ns.
Proof. apply length_imap. Qed.

Lemma bump_nil (ns : list nodeInfo) : bump [] ns = ns.
Proof.
  apply list_eq. intros k. rewrite bump_lookup.
  by destruct (ns !! k).
Qed.

Lemma bump_snoc (U : list Z) (d : Z) (ns : list nodeInfo) (ni : nodeInfo) :
  d ∉ U → 0 ≤ d → ns !! Z.to_nat d = Some ni →
  <[Z.to_nat d := incr ni]> (bump U ns) = bump (U ++ [d]) ns.
Proof.
  intros HdU Hd Hni. apply list_eq. intros k.
  destruct (decide (k = Z.to_nat d)) as [->|Hk].
  - rewrite list_lookup_insert_eq.
    + rewrite bump_lookup, Hni. simpl. unfold bumped.
      rewrite decide_True; [done|].
      rewrite Z2Nat.id by done. set_solver.
    + rewrite bump_length. by eapply lookup_lt_Some.
  - rewrite list_lookup_insert_ne by done. rewrite !bump_lookup.
    destruct (ns !! k); simpl; [|done]. f_equal.
    assert (Z.of_nat k ≠ d) by lia.
    unfold bumped. apply decide_ext. set_solver.
Qed.

(** ** The loops of [NewOperator] *)

Lemma coherent_start (g : Graph) :
  coherent (g_nodes g) (g_maxDepth g) (g_maxId g)
    {| l_graph := g;
       l_mark := replicate (length (g_nodes g)) false;
       l_descendants := [] |}.
Proof.
  split; simpl.
  - done.
  - by rewrite bump_nil.
  - done.
  - apply length_replicate.
  - intros k Hk. by rewrite lookup_replicate_2.
  - constructor.
  - constructor.
Qed.

Lemma visit_spec (ns : list nodeInfo) (m i : Z) (s : loopState) (d : Z) :
  coherent ns m i s → 0 ≤ d < len ns →
  ∃ s', visit s d = Continue s' ∧ coherent ns m i s' ∧
        l_descendants s' = addNew (l_descendants s) d.
Proof.
  intros [Hid Hns Hmax Hml Hmark Hnd Hrange] Hd.
  unfold len in Hd.
  assert (Hlt : (Z.to_nat d < length ns)%nat) by lia.
  unfold visit, addNew, index. rewrite !decide_True by lia.
  rewrite (Hmark _ Hlt), Z2Nat.id by lia.
  destruct (decide (d ∈ l_descendants s)) as [Hin|Hnin].
  - rewrite bool_decide_eq_true_2 by done.
    exists s. by repeat split.
  - rewrite bool_decide_eq_false_2 by done.
    destruct (lookup_lt_is_Some_2 ns _ Hlt) as [ni Hni].
    rewrite Hns, bump_lookup, Hni. simpl. unfold bumped.
    rewrite Z2Nat.id, decide_False by (done || lia).
    eexists. split; [done|]. split; [|done].
    split; simpl.
    + done.
    + by apply (bump_snoc _ _ _ ni); [|lia|].
    + rewrite maxOf_fmap_snoc, maxDepth_max, Hmax.
      unfold index. rewrite decide_True by lia. by rewrite Hni.
    + by rewrite length_insert.
    + intros k Hk. destruct (decide (k = Z.to_nat d)) as [->|Hne].
      * rewrite list_lookup_insert_eq by lia.
        rewrite bool_decide_eq_true_2; [done|].
        rewrite Z2Nat.id by lia. set_solver.
      * rewrite list_lookup_insert_ne by done. rewrite Hmark by done.
        f_equal. apply bool_decide_ext.
        assert (Z.of_nat k ≠ d) by lia. set_solver.
    + apply NoDup_app. split; [done|]. split; [|apply NoDup_singleton].
      intros x Hx Hx'. apply list_elem_of_singleton in Hx'. by subst.
    + apply Forall_app. split; [done|]. apply Forall_singleton.
      unfold len. lia.
Qed.

Lemma forDescendants_spec (ns : list nodeInfo) (m i : Z) (ds : list Z) :
  ∀ s, coherent ns m i s → Forall (λ d, 0 ≤ d < len ns) ds →
  ∃ s', forDescendants ds s = Continue s' ∧ coherent ns m i s' ∧
        l_descendants s' = foldl addNew (l_descendants s) ds.
Proof.
  induction ds as [|d ds IH]; intros s Hs Hds; simpl.
  - by exists s.
  - apply Forall_cons in Hds as [Hd Hds].
    destruct (visit_spec ns m i s d Hs Hd) as (s1 & -> & Hs1 & Hacc1).
    simpl. destruct (IH s1 Hs1 Hds) as (s2 & -> & Hs2 & Hacc2).
    exists s2. by rewrite Hacc2, Hacc1.
Qed.

Lemma forOperands_spec (ns : list nodeInfo) (m i : Z) (operands : list Node) :
  descendantsInArena ns →
  ∀ s, coherent ns m i s → Forall (λ o, 0 ≤ Id o < len ns) operands →
  ∃ s', forOperands operands s = Continue s' ∧ coherent ns m i s' ∧
        l_descendants s' =
        foldl (λ acc o,
                 foldl addNew acc (default [] (descendants <$> index ns (Id o))))
              (l_descendants s) operands.
Proof.
  intros Hns. induction operands as [|o os IH]; intros s Hs Hos; simpl.
  - by exists s.
  - apply Forall_cons in Hos as [Ho Hos].
    destruct (proj2 (index_is_Some ns (Id o)) Ho) as [ni Hni].
    rewrite Hni. simpl.
    assert (Hni' : index (g_nodes (l_graph s)) (Id o) =
                   Some (bumped (l_descendants s) (Z.to_nat (Id o)) ni)).
    { apply index_Some in Hni as [H0 Hni]. apply index_Some. split; [done|].
      by rewrite (coh_nodes _ _ _ _ Hs), bump_lookup, Hni. }
    rewrite Hni', descendants_bumped.
    assert (Hds : Forall (λ d, 0 ≤ d < len ns) (descendants ni)).
    { apply index_Some in Hni as [_ Hni]. by eapply Hns. }
    destruct (forDescendants_spec ns m i _ s Hs Hds) as (s1 & -> & Hs1 & Hacc1).
    simpl. destruct (IH s1 Hs1 Hos) as (s2 & -> & Hs2 & Hacc2).
    exists s2. by rewrite Hacc2, Hacc1.
Qed.

Lemma sumDescendants_from_is_Some (g : Graph) (ns : list Node) :
  ∀ sum, is_Some (sumDescendants_from g ns sum) ↔
         Forall (λ n, inArena g (Id n)) ns.
Proof.
  induction ns as [|n ns IH]; intros sum; simpl.
  - split; [constructor | by eexists].
  - rewrite Forall_cons. unfold inArena at 1. rewrite <- index_is_Some.
    destruct (index (g_nodes g) (Id n)) as [ni|].
    + rewrite IH. split; [by split | by intros [_ ?]].
    + split; [by intros [? ?] | by intros [[? ?] _]].
Qed.

Lemma requireGrad_existsb (ns : list Node) :
  requireGrad ns = existsb RequiresGrad ns.
Proof.
  induction ns as [|n ns IH]; simpl; [done|]. by destruct (RequiresGrad n).
Qed.

(** [NewOperator] on operands of the arena returns, and what it leaves is
    [afterNewOperator]. *)
Lemma NewOperator_returns (f : Function) (operands : list Node) (g : Graph) :
  descendantsInArena (g_nodes g) →
  Forall (λ o, inArena g (Id o)) operands →
  NewOperator f operands g =
  Returned (afterNewOperator f operands g) (newOperator f operands g) ∧
  NoDup (unionDescendants g operands) ∧
  Forall (inArena g) (unionDescendants g operands).
Proof.
  intros Hns Hops. unfold NewOperator, newId, sumDescendants. simpl.
  destruct (proj2 (sumDescendants_from_is_Some
                     {| g_maxId := g_maxId g + 1; g_maxDepth := g_maxDepth g;
                        g_nodes := g_nodes g |} operands 0) Hops) as [sum ->].
  pose proof (coherent_start {| g_maxId := g_maxId g + 1;
                                g_maxDepth := g_maxDepth g;
                                g_nodes := g_nodes g |}) as Hstart.
  simpl in Hstart.
  destruct (forOperands_spec _ _ _ operands Hns _ Hstart Hops)
    as (s & -> & [Hid Hnodes Hmax _ _ Hnd Hrange] & Hacc).
  simpl in Hacc. fold (unionDescendants g operands) in Hacc.
  rewrite Hacc in *. split; [|by split].
  unfold afterNewOperator, extend, appendNode, newOperator.
  rewrite Hid, Hnodes, Hmax, requireGrad_existsb.
  repeat f_equal; lia.
Qed.

(** [NewOperator] on an operand outside the arena panics, having consumed
    an identity and nothing else. *)
Lemma NewOperator_panics (f : Function) (operands : list Node) (g : Graph) :
  Exists (λ o, ¬ inArena g (Id o)) operands →
  NewOperator f operands g =
  Panicked {| g_maxId := g_maxId g + 1; g_maxDepth := g_maxDepth g;
              g_nodes := g_nodes g |}.
Proof.
  intros Hex. unfold NewOperator, newId, sumDescendants. simpl.
  destruct (sumDescendants_from _ operands 0) as [sum|] eqn:Hsum; [|done].
  exfalso. apply Exists_not_Forall in Hex. apply Hex.
  exact (proj1 (sumDescendants_from_is_Some _ operands 0) (mk_is_Some _ _ Hsum)).
Qed.

(** ** The union of the operands' descendants *)

Lemma elem_of_foldl_addNew (ds : list Z) :
  ∀ acc x, x ∈ foldl addNew acc ds ↔ x ∈ acc ∨ x ∈ ds.
Proof.
  induction ds as [|d ds IH]; intros acc x; simpl.
  - set_solver.
  - rewrite IH. unfold addNew. case_decide; set_solver.
Qed.

Lemma NoDup_foldl_addNew (ds : list Z) :
  ∀ acc, NoDup acc → NoDup (foldl addNew acc ds).
Proof.
  induction ds as [|d ds IH]; intros acc Hacc; simpl; [done|].
  apply IH. unfold addNew. case_decide; [done|].
  apply NoDup_app. split; [done|]. split; [|apply NoDup_singleton].
  intros x Hx Hx'. apply list_elem_of_singleton in Hx'. by subst.
Qed.

Lemma elem_of_union_from (g : Graph) (operands : list Node) :
  ∀ acc x,
    x ∈ foldl (λ acc o, foldl addNew acc (descendantsAt g (Id o))) acc operands ↔
    x ∈ acc ∨ ∃ o, o ∈ operands ∧ x ∈ descendantsAt g (Id o).
Proof.
  induction operands as [|o os IH]; intros acc x; simpl.
  - set_solver.
  - rewrite IH, elem_of_foldl_addNew. set_solver.
Qed.

Lemma elem_of_unionDescendants (g : Graph) (operands : list Node) (x : Z) :
  x ∈ unionDescendants g operands ↔
  ∃ o, o ∈ operands ∧ x ∈ descendantsAt g (Id o).
Proof.
  unfold unionDescendants. rewrite elem_of_union_from. set_solver.
Qed.

Lemma NoDup_unionDescendants (g : Graph) (operands : list Node) :
  NoDup (unionDescendants g operands).
Proof.
  unfold unionDescendants. generalize (NoDup_nil_2 (A:=Z)).
  generalize (@nil Z). induction operands as [|o os IH]; intros acc Hacc;
    simpl; [done|].
  apply IH. by apply NoDup_foldl_addNew.
Qed.

Lemma descendantsAt_lookup (g : Graph) (k : nat) (ni : nodeInfo) :
  g_nodes g !! k = Some ni → descendantsAt g (Z.of_nat k) = descendants ni.
Proof.
  intros H. unfold descendantsAt. by rewrite index_of_nat, H.
Qed.

Lemma depthAt_lookup (g : Graph) (k : nat) (ni : nodeInfo) :
  g_nodes g !! k = Some ni → depthAt g (Z.of_nat k) = depth ni.
Proof.
  intros H. unfold depthAt. by rewrite index_of_nat, H.
Qed.

Lemma elem_of_descendantsAt (g : Graph) (i d : Z) :
  d ∈ descendantsAt g i ↔
  ∃ k ni, i = Z.of_nat k ∧ g_nodes g !! k = Some ni ∧ d ∈ descendants ni.
Proof.
  unfold descendantsAt. split.
  - destruct (index (g_nodes g) i) as [ni|] eqn:Hi; simpl.
    + apply index_Some in Hi as [H0 Hi]. intros Hd.
      exists (Z.to_nat i), ni. split; [lia | done].
    + intros Hd. by apply elem_of_nil in Hd.
  - intros (k & ni & -> & Hk & Hd). by rewrite index_of_nat, Hk.
Qed.

(** ** What a call does *)

Lemma exec_returns (c : call) (g : Graph) :
  descendantsInArena (g_nodes g) →
  Forall (inArena g) (operandIds c) →
  exec c g = Returned (extend (touched c g) (builtNode c g) g) (builtNode c g).
Proof.
  intros Hns Hops.
  destruct c as [value rg|value|f operands|value|value]; simpl;
    try (unfold NewScalar, NewVariable, NewWrap, NewWrapNoGrad, newId,
           appendNode, extend; simpl;
         rewrite bump_nil, Z.add_simpl_r; done).
  simpl in Hops. rewrite Forall_fmap in Hops.
  by destruct (NewOperator_returns f operands g Hns Hops) as [-> _].
Qed.

Lemma exec_panics (c : call) (g : Graph) :
  ¬ Forall (inArena g) (operandIds c) →
  exec c g = Panicked (afterPanic g).
Proof.
  intros Hops.
  destruct c as [value rg|value|f operands|value|value]; simpl in *;
    try (exfalso; apply Hops; constructor).
  rewrite NewOperator_panics; [done|].
  apply not_Forall_Exists in Hops; [|intros x; unfold inArena; apply _].
  by rewrite Exists_fmap in Hops.
Qed.

Lemma exec_Returned_inv (c : call) (g g' : Graph) (n : Node) :
  descendantsInArena (g_nodes g) →
  exec c g = Returned g' n →
  Forall (inArena g) (operandIds c) ∧
  g' = extend (touched c g) (builtNode c g) g ∧ n = builtNode c g.
Proof.
  intros Hns Hexec.
  destruct (decide (Forall (inArena g) (operandIds c))) as [Hops|Hops].
  - rewrite exec_returns in Hexec by done. by simplify_eq.
  - by rewrite exec_panics in Hexec.
Qed.

(** ** The invariant is kept *)

Lemma maxOf_unique (m : Z) (l : list Z) (v : Z) :
  m ≤ v → (∀ x, x ∈ l → x ≤ v) → v = m ∨ v ∈ l → maxOf m l = v.
Proof.
  intros Hm Hl Hv. apply Z.le_antisymm.
  - destruct (maxOf_attained m l) as [->|Hin]; [done | by apply Hl].
  - destruct Hv as [->|Hv]; [apply maxOf_ge_init | by apply maxOf_ge_elem].
Qed.

Lemma filter_imap_length {A : Type} (P : A → Prop) `{!∀ x, Decision (P x)}
    (l : list A) :
  ∀ f : nat → A → A, (∀ i x, P (f i x) ↔ P x) →
  length (filter P (imap f l)) = length (filter P l).
Proof.
  induction l as [|x l IH]; intros f Hf; simpl; [done|].
  rewrite !filter_cons.
  rewrite (decide_ext (P (f 0%nat x)) (P x)) by apply Hf.
  destruct (decide (P x)); simpl; rewrite IH; try done;
    intros i y; apply Hf.
Qed.

Lemma lookup_extend (U : list Z) (n : Node) (g : Graph) (k : nat)
    (r : nodeInfo) :
  g_nodes (extend U n g) !! k = Some r ↔
  (∃ ni, g_nodes g !! k = Some ni ∧ r = bumped U k ni) ∨
  (k = length (g_nodes g) ∧
   r = {| node := n; depth := 0; descendants := U ++ [g_maxId g] |}).
Proof.
  simpl. destruct (decide (k < length (g_nodes g))%nat) as [Hk|Hk].
  - rewrite lookup_app_l by (by rewrite bump_length).
    rewrite bump_lookup. split.
    + destruct (g_nodes g !! k) as [ni|]; [|done].
      intros [= <-]. left. by exists ni.
    + intros [(ni & -> & ->)|[-> _]]; [done | lia].
  - rewrite lookup_app_r by (rewrite bump_length; lia).
    rewrite bump_length. split.
    + intros Hr. right.
      destruct (k - length (g_nodes g))%nat as [|k'] eqn:Hk'; [|done].
      simpl in Hr. split; [lia | congruence].
    + intros [(ni & Hni & _)|[-> ->]].
      * apply lookup_lt_Some in Hni. lia.
      * by rewrite Nat.sub_diag.
Qed.

Lemma count_extend (U : list Z) (n : Node) (g : Graph) (i : Z) :
  len (consumerRecords (extend U n g) i) =
  len (consumerRecords g i) +
  (if decide (i ∈ U ++ [g_maxId g] ∧ Id n ≠ i) then 1 else 0).
Proof.
  unfold consumerRecords, len. simpl. rewrite filter_app, length_app.
  unfold bump. rewrite filter_imap_length.
  - rewrite filter_cons, filter_nil. simpl.
    case_decide; simpl; lia.
  - intros k x. by rewrite node_bumped, descendants_bumped.
Qed.

Lemma consumerRecords_fresh (g : Graph) (i : Z) :
  wf g → len (g_nodes g) ≤ i → consumerRecords g i = [].
Proof.
  intros Hwf Hi. unfold consumerRecords.
  destruct (filter _ (g_nodes g)) as [|m ms] eqn:Hf; [done|]. exfalso.
  assert (Hm : m ∈ m :: ms) by left.
  rewrite <- Hf in Hm. apply list_elem_of_filter in Hm as [[Hin _] Hm].
  apply list_elem_of_lookup in Hm as [k Hk].
  pose proof (wf_range g Hwf k m i Hk Hin).
  apply lookup_lt_Some in Hk. unfold len in Hi. lia.
Qed.

Lemma wf_depth_nonneg (g : Graph) (k : nat) (ni : nodeInfo) :
  wf g → g_nodes g !! k = Some ni → 0 ≤ depth ni.
Proof.
  intros Hwf Hk. rewrite (wf_count g Hwf k ni Hk). unfold len. lia.
Qed.

Lemma maxDepth_extend (U : list Z) (n : Node) (g : Graph) :
  wf g → (∀ d, d ∈ U → inArena g d) →
  maxOf (g_maxDepth g) ((λ d, depthAt g d + 1) <$> U) =
  maxOf 0 (depth <$> g_nodes (extend U n g)).
Proof.
  intros Hwf HU. symmetry. apply maxOf_unique.
  - etransitivity; [|apply maxOf_ge_init].
    rewrite (wf_maxDepth g Hwf). apply maxOf_ge_init.
  - intros x Hx. apply list_elem_of_fmap in Hx as (r & -> & Hr).
    apply list_elem_of_lookup in Hr as [k Hk].
    apply lookup_extend in Hk as [(ni & Hni & ->)|[_ ->]].
    + rewrite depth_bumped. case_decide as HkU.
      * apply maxOf_ge_elem, list_elem_of_fmap.
        exists (Z.of_nat k). split; [|done].
        by rewrite (depthAt_lookup g k ni).
      * etransitivity; [|apply maxOf_ge_init].
        rewrite (wf_maxDepth g Hwf), Z.add_0_r.
        apply maxOf_ge_elem, list_elem_of_fmap. exists ni.
        split; [done|]. apply list_elem_of_lookup. by exists k.
    + simpl. etransitivity; [|apply maxOf_ge_init].
      rewrite (wf_maxDepth g Hwf). apply maxOf_ge_init.
  - destruct (maxOf_attained (g_maxDepth g) ((λ d, depthAt g d + 1) <$> U))
      as [Hm|Hm].
    + rewrite Hm.
      destruct (maxOf_attained 0 (depth <$> g_nodes g)) as [H0|Hin];
        rewrite <- (wf_maxDepth g Hwf) in *; [by left|].
      right. apply list_elem_of_fmap in Hin as (ni & Hd & Hni).
      apply list_elem_of_lookup in Hni as [k Hk].
      destruct (decide (Z.of_nat k ∈ U)) as [HkU|HkU].
      * exfalso.
        assert (depthAt g (Z.of_nat k) + 1 ≤ g_maxDepth g) as Hle.
        { rewrite <- Hm. apply maxOf_ge_elem, list_elem_of_fmap.
          by exists (Z.of_nat k). }
        rewrite (depthAt_lookup g k ni) in Hle by done. lia.
      * apply list_elem_of_fmap. exists (bumped U k ni). split.
        -- rewrite depth_bumped, decide_False by done. lia.
        -- apply list_elem_of_lookup. exists k. apply lookup_extend.
           left. by exists ni.
    + right. apply list_elem_of_fmap in Hm as (d & Hd & HdU).
      destruct (HU d HdU) as [Hd0 Hdlt].
      destruct (lookup_lt_is_Some_2 (g_nodes g) (Z.to_nat d)) as [ni Hni];
        [unfold len in Hdlt; lia|].
      apply list_elem_of_fmap. exists (bumped U (Z.to_nat d) ni). split.
      * rewrite depth_bumped, Z2Nat.id, decide_True by done.
        rewrite Hd. f_equal. unfold depthAt, index.
        rewrite decide_True by done. by rewrite Hni.
      * apply list_elem_of_lookup. exists (Z.to_nat d). apply lookup_extend.
        left. by exists ni.
Qed.

Lemma wf_extend (U : list Z) (n : Node) (g : Graph) :
  wf g →
  NoDup U →
  (∀ d, d ∈ U → inArena g d) →
  (∀ j nj d, Z.of_nat j ∈ U → g_nodes g !! j = Some nj →
             d ∈ descendants nj → d ∈ U) →
  Id n = g_maxId g →
  (isOperator n = false → U = []) →
  wf (extend U n g).
Proof.
  intros Hwf Hnd HU Hcl Hid Hleaf.
  pose proof (wf_maxId g Hwf) as Hmax. unfold len in Hmax.
  assert (Hfresh : g_maxId g ∉ U).
  { intros Hin. apply HU in Hin. unfold inArena, len in Hin. lia. }
  split.
  - simpl. unfold len. rewrite length_app, bump_length. simpl. lia.
  - intros k r Hk. apply lookup_extend in Hk as [(ni & Hni & ->)|[-> ->]].
    + rewrite node_bumped. by eapply wf_id.
    + simpl. lia.
  - intros k r Hk. apply lookup_extend in Hk as [(ni & Hni & ->)|[-> ->]].
    + rewrite descendants_bumped. by eapply wf_self.
    + simpl. rewrite <- Hmax. set_solver.
  - intros k r Hk. apply lookup_extend in Hk as [(ni & Hni & ->)|[-> ->]].
    + rewrite descendants_bumped. by eapply wf_NoDup.
    + simpl. apply NoDup_app. split; [done|].
      split; [|apply NoDup_singleton].
      intros x Hx Hx'. apply list_elem_of_singleton in Hx'. by subst.
  - intros k r d Hk. apply lookup_extend in Hk as [(ni & Hni & ->)|[-> ->]].
    + rewrite descendants_bumped. by eapply wf_range.
    + simpl. rewrite elem_of_app, list_elem_of_singleton.
      intros [Hd| ->]; [|lia]. apply HU in Hd. unfold inArena, len in Hd. lia.
  - intros k r j rj Hk Hj.
    apply lookup_extend in Hk as [(ni & Hni & ->)|[-> ->]];
      apply lookup_extend in Hj as [(nj & Hnj & ->)|[-> ->]];
      rewrite ?descendants_bumped; simpl.
    + by eapply wf_closed.
    + intros Hin. pose proof (wf_range g Hwf _ _ _ Hni Hin).
      apply lookup_lt_Some in Hni. lia.
    + rewrite elem_of_app, list_elem_of_singleton. intros [Hin|Heq].
      * intros d Hd. apply elem_of_app. left. by eapply Hcl.
      * apply lookup_lt_Some in Hnj. lia.
    + done.
  - intros k r Hk. apply lookup_extend in Hk as [(ni & Hni & ->)|[-> ->]].
    + rewrite node_bumped, descendants_bumped. by eapply wf_leaf.
    + simpl. intros Hl. rewrite (Hleaf Hl). simpl. by rewrite Hmax.
  - by apply maxDepth_extend.
  - intros k r Hk. rewrite count_extend.
    apply lookup_extend in Hk as [(ni & Hni & ->)|[-> ->]].
    + rewrite depth_bumped, (wf_count g Hwf k ni Hni). f_equal.
      apply lookup_lt_Some in Hni.
      apply decide_ext. rewrite elem_of_app, list_elem_of_singleton.
      split; [intros ?; split; [by left | lia] | intros [[?|?] ?]; [done | lia]].
    + simpl. rewrite consumerRecords_fresh by (done || unfold len; lia).
      rewrite decide_False; [done|]. intros [_ Hne]. lia.
  - intros k r j rj Hk Hj.
    apply lookup_extend in Hk as [(ni & Hni & ->)|[-> ->]];
      apply lookup_extend in Hj as [(nj & Hnj & ->)|[-> ->]];
      rewrite ?descendants_bumped, ?depth_bumped; simpl.
    + intros Hin Hne. pose proof (wf_order g Hwf _ _ _ _ Hni Hnj Hin Hne).
      destruct (decide (Z.of_nat k ∈ U)) as [HkU|HkU];
        destruct (decide (Z.of_nat j ∈ U)) as [HjU|HjU]; try lia.
      exfalso. apply HjU. by eapply Hcl.
    + intros Hin. pose proof (wf_range g Hwf _ _ _ Hni Hin).
      apply lookup_lt_Some in Hni. lia.
    + rewrite elem_of_app, list_elem_of_singleton. intros [Hin|Heq] _.
      * rewrite decide_True by done.
        pose proof (wf_depth_nonneg g j nj Hwf Hnj). lia.
      * apply lookup_lt_Some in Hnj. lia.
    + done.
Qed.

Lemma wf_NewGraph : wf NewGraph.
Proof.
  split; simpl; try done; intros k ni; intros; by rewrite lookup_nil in *.
Qed.

Lemma wf_descendantsInArena (g : Graph) :
  wf g → descendantsInArena (g_nodes g).
Proof.
  intros Hwf k ni Hk. apply Forall_forall. intros d Hd.
  pose proof (wf_range g Hwf k ni d Hk Hd).
  apply lookup_lt_Some in Hk. unfold len. lia.
Qed.

Lemma elem_of_touched (c : call) (g : Graph) (d : Z) :
  d ∈ touched c g ↔ ∃ a, a ∈ operandIds c ∧ d ∈ descendantsAt g a.
Proof.
  destruct c as [value rg|value|f operands|value|value]; simpl;
    try (split; [intros H; by apply elem_of_nil in H
                | intros (a & H & _); by apply elem_of_nil in H]).
  rewrite elem_of_unionDescendants. split.
  - intros (o & Ho & Hd). exists (Id o). split; [|done].
    apply list_elem_of_fmap. by exists o.
  - intros (a & Ha & Hd). apply list_elem_of_fmap in Ha as (o & -> & Ho).
    by exists o.
Qed.

Lemma Id_builtNode (c : call) (g : Graph) : Id (builtNode c g) = g_maxId g.
Proof. by destruct c. Qed.

Lemma touched_leaf (c : call) (g : Graph) :
  isOperator (builtNode c g) = false → touched c g = [].
Proof. by destruct c. Qed.

Lemma wf_exec (c : call) (g g' : Graph) (n : Node) :
  wf g → exec c g = Returned g' n → wf g'.
Proof.
  intros Hwf Hexec.
  apply exec_Returned_inv in Hexec as (Hops & -> & ->);
    [|by apply wf_descendantsInArena].
  apply wf_extend; try done.
  - destruct c; try apply NoDup_nil_2. apply NoDup_unionDescendants.
  - intros d Hd. apply elem_of_touched in Hd as (a & Ha & Hd).
    apply elem_of_descendantsAt in Hd as (k & ni & -> & Hk & Hd).
    pose proof (wf_range g Hwf k ni d Hk Hd).
    apply lookup_lt_Some in Hk. unfold inArena, len. lia.
  - intros j nj d Hj Hnj Hd.
    apply elem_of_touched in Hj as (a & Ha & Hj).
    apply elem_of_touched. exists a. split; [done|].
    apply elem_of_descendantsAt in Hj as (k & ni & -> & Hk & Hj).
    rewrite (descendantsAt_lookup g k ni Hk).
    by eapply (wf_closed g Hwf k ni j nj).
  - apply Id_builtNode.
  - apply touched_leaf.
Qed.

Lemma arena_ids (g : Graph) :
  wf g → Id <$> (node <$> g_nodes g) = seqZ 0 (len (g_nodes g)).
Proof.
  intros Hwf. apply list_eq. intros k. rewrite !list_lookup_fmap.
  destruct (g_nodes g !! k) as [ni|] eqn:Hk; simpl.
  - rewrite (wf_id g Hwf k ni Hk). symmetry.
    apply lookup_seqZ. apply lookup_lt_Some in Hk. unfold len. lia.
  - symmetry. apply lookup_seqZ_ge. apply lookup_ge_None in Hk.
    unfold len. lia.
Qed.

(** ** Runs *)

Lemma run_from_snoc (cs : list call) (c : call) :
  ∀ g made,
    run_from (cs ++ [c]) g made =
    match run_from cs g made with
    | Returned g1 made1 =>
        match exec c g1 with
        | Returned g2 n => Returned g2 (made1 ++ [n])
        | Panicked g2 => Panicked g2
        end
    | Panicked g1 => Panicked g1
    end.
Proof.
  induction cs as [|c0 cs IH]; intros g made; simpl.
  - by destruct (exec c g).
  - destruct (exec c0 g); [apply IH | done].
Qed.

Lemma run_snoc_inv (cs : list call) (c : call) (g0 g : Graph)
    (ns : list Node) :
  run (cs ++ [c]) g0 = Returned g ns →
  ∃ g1 ns1 n, run cs g0 = Returned g1 ns1 ∧ exec c g1 = Returned g n ∧
              ns = ns1 ++ [n].
Proof.
  unfold run. rewrite run_from_snoc.
  destruct (run_from cs g0 []) as [g1 ns1|]; [|done].
  destruct (exec c g1) as [g2 n|] eqn:Hexec; [|done].
  intros [= <- <-]. by exists g1, ns1, n.
Qed.

Lemma descendantsAt_extend (U : list Z) (n : Node) (g : Graph) (a : Z) :
  inArena g a → descendantsAt (extend U n g) a = descendantsAt g a.
Proof.
  intros [Ha0 Ha]. unfold len in Ha. unfold descendantsAt, index.
  rewrite !decide_True by done. simpl.
  rewrite lookup_app_l by (rewrite bump_length; lia).
  rewrite bump_lookup. destruct (g_nodes g !! Z.to_nat a); simpl; [|done].
  apply descendants_bumped.
Qed.

Lemma traced_exec (cs : list call) (c : call) (g g' : Graph) (n : Node) :
  wf g → traced cs g → exec c g = Returned g' n → traced (cs ++ [c]) g'.
Proof.
  intros Hwf [Hlen Hbuilds Hops Hdesc] Hexec.
  apply exec_Returned_inv in Hexec as (Hc & -> & ->);
    [|by apply wf_descendantsInArena].
  pose proof (wf_maxId g Hwf) as Hmax. unfold len in Hmax.
  split.
  - simpl. rewrite !length_app, bump_length. simpl. lia.
  - intros k c0 r Hk Hr.
    apply lookup_extend in Hr as [(ni & Hni & ->)|[-> ->]].
    + rewrite node_bumped.
      rewrite lookup_app_l in Hk by (apply lookup_lt_Some in Hni; lia).
      by eapply Hbuilds.
    + simpl. rewrite <- Hlen, lookup_app_r, Nat.sub_diag in Hk by lia.
      simpl in Hk. injection Hk as <-. by destruct c.
  - intros k c0 a Hk Ha. apply lookup_app_Some in Hk as [Hk|[Hge Hk]].
    + by eapply Hops.
    + apply list_lookup_singleton_Some in Hk as [Hk ->].
      rewrite Forall_forall in Hc. apply Hc in Ha.
      unfold inArena, len in Ha. lia.
  - intros k c0 r Hk Hr d.
    apply lookup_extend in Hr as [(ni & Hni & ->)|[-> ->]].
    + rewrite descendants_bumped.
      rewrite lookup_app_l in Hk by (apply lookup_lt_Some in Hni; lia).
      rewrite (Hdesc k c0 ni Hk Hni d).
      apply or_iff_compat_l. apply exist_proper. intros a.
      split; intros [Ha Hd]; split; try done.
      * rewrite descendantsAt_extend; [done|].
        pose proof (Hops k c0 a Hk Ha). apply lookup_lt_Some in Hni.
        unfold inArena, len. lia.
      * rewrite descendantsAt_extend in Hd; [done|].
        pose proof (Hops k c0 a Hk Ha). apply lookup_lt_Some in Hni.
        unfold inArena, len. lia.
    + simpl. rewrite <- Hlen, lookup_app_r, Nat.sub_diag in Hk by lia.
      simpl in Hk. injection Hk as <-.
      rewrite elem_of_app, list_elem_of_singleton, elem_of_touched.
      rewrite <- Hmax. rewrite Forall_forall in Hc.
      split.
      * intros [(a & Ha & Hd)| ->]; [right | by left].
        exists a. split; [done|].
        by rewrite descendantsAt_extend by by apply Hc.
      * intros [->|(a & Ha & Hd)]; [by right | left].
        exists a. split; [done|].
        by rewrite descendantsAt_extend in Hd by by apply Hc.
Qed.

(** Every graph that a sequence of returning calls builds from [NewGraph]
    satisfies the invariant, records what the history says, and holds the
    returned nodes in call order. *)
Lemma run_invariant (cs : list call) :
  ∀ g ns, run cs NewGraph = Returned g ns →
          wf g ∧ traced cs g ∧ node <$> g_nodes g = ns.
Proof.
  induction cs as [|c cs IH] using rev_ind; intros g ns Hrun.
  - injection Hrun as <- <-. split; [apply wf_NewGraph|]. split; [|done].
    split; simpl; try done; intros k c; intros; by rewrite lookup_nil in *.
  - apply run_snoc_inv in Hrun as (g1 & ns1 & n & Hrun & Hexec & ->).
    destruct (IH g1 ns1 Hrun) as (Hwf & Htr & Hns).
    split; [by eapply wf_exec|]. split; [by eapply traced_exec|].
    apply exec_Returned_inv in Hexec as (_ & -> & ->);
      [|by apply wf_descendantsInArena].
    simpl. rewrite fmap_app. simpl. f_equal. rewrite <- Hns.
    apply list_eq. intros k. rewrite !list_lookup_fmap, bump_lookup.
    destruct (g_nodes g1 !! k); simpl; [|done]. by rewrite node_bumped.
Qed.

Lemma depthAt_extend (U : list Z) (n : Node) (g : Graph) (i : Z) :
  inArena g i →
  depthAt (extend U n g) i =
  depthAt g i + (if decide (i ∈ U) then 1 else 0).
Proof.
  intros [Hi0 Hi]. unfold len in Hi. unfold depthAt, index.
  rewrite !decide_True by done. simpl.
  rewrite lookup_app_l by (rewrite bump_length; lia).
  rewrite bump_lookup.
  destruct (lookup_lt_is_Some_2 (g_nodes g) (Z.to_nat i)) as [ni ->]; [lia|].
  simpl. by rewrite depth_bumped, Z2Nat.id.
Qed.

Lemma unionDescendants_inArena (g : Graph) (operands : list Node) (d : Z) :
  descendantsInArena (g_nodes g) →
  d ∈ unionDescendants g operands → inArena g d.
Proof.
  intros Hns Hd. apply elem_of_unionDescendants in Hd as (o & _ & Hd).
  apply elem_of_descendantsAt in Hd as (k & ni & _ & Hk & Hd).
  pose proof (Hns k ni Hk) as Hall. rewrite Forall_forall in Hall.
  by apply Hall.
Qed.

Lemma run_from_app (cs1 cs2 : list call) :
  ∀ g made,
    run_from (cs1 ++ cs2) g made =
    match run_from cs1 g made with
    | Returned g1 made1 => run_from cs2 g1 made1
    | Panicked g1 => Panicked g1
    end.
Proof.
  induction cs1 as [|c cs1 IH]; intros g made; simpl; [done|].
  destruct (exec c g); [apply IH | done].
Qed.

(** A returning call keeps every record in its slot, with its node and its
    descendants, and with its depth or its depth plus one. *)
Lemma exec_frame (c : call) (g g' : Graph) (n : Node) (k : nat)
    (ni : nodeInfo) :
  wf g → exec c g = Returned g' n → g_nodes g !! k = Some ni →
  ∃ ni', g_nodes g' !! k = Some ni' ∧ node ni' = node ni ∧
         descendants ni' = descendants ni ∧
         depth ni ≤ depth ni' ≤ depth ni + 1.
Proof.
  intros Hwf Hexec Hk.
  apply exec_Returned_inv in Hexec as (_ & -> & _);
    [|by apply wf_descendantsInArena].
  exists (bumped (touched c g) k ni).
  split; [apply lookup_extend; left; by exists ni|].
  rewrite node_bumped, descendants_bumped, depth_bumped.
  repeat split; case_decide; lia.
Qed.

Lemma run_from_frame (later : list call) :
  ∀ g made g' ns' k ni,
    wf g → run_from later g made = Returned g' ns' →
    g_nodes g !! k = Some ni →
    ∃ ni', g_nodes g' !! k = Some ni' ∧ node ni' = node ni ∧
           descendants ni' = descendants ni ∧ depth ni ≤ depth ni'.
Proof.
  induction later as [|c later IH]; intros g made g' ns' k ni Hwf Hrun Hk;
    simpl in Hrun.
  - injection Hrun as <- <-. exists ni. repeat split; (done || lia).
  - destruct (exec c g) as [g1 n|] eqn:Hexec; [|done].
    destruct (exec_frame c g g1 n k ni Hwf Hexec Hk)
      as (ni1 & Hk1 & Hnode1 & Hdesc1 & Hdepth1).
    destruct (IH g1 _ g' ns' k ni1 (wf_exec c g g1 n Hwf Hexec) Hrun Hk1)
      as (ni' & Hk' & Hnode' & Hdesc' & Hdepth').
    exists ni'. repeat split; (congruence || lia).
Qed.

(** ** Buckets *)

Lemma concat_insert_snoc {A : Type} (out : list (list A)) :
  ∀ (i : nat) (b : list A) (x : A),
    out !! i = Some b →
    concat (<[i := b ++ [x]]> out) ≡ₚ concat out ++ [x].
Proof.
  induction out as [|b0 out IH]; intros i b x Hi; [done|].
  destruct i as [|i]; simpl in *.
  - injection Hi as ->. rewrite <- !app_assoc.
    apply Permutation_app_head, Permutation_app_comm.
  - rewrite <- app_assoc. apply Permutation_app_head. by apply IH.
Qed.

Lemma concat_replicate_nil {A : Type} (n : nat) :
  concat (replicate n (@nil A)) = [].
Proof. induction n as [|n IH]; [done | exact IH]. Qed.

Lemma fillBuckets_spec (ns : list nodeInfo) :
  ∀ out, Forall (λ m, 0 ≤ depth m < len out) ns →
  ∃ out', fillBuckets ns out = Some out' ∧
          length out' = length out ∧
          (∀ d, out' !! d =
                (λ b, b ++ (node <$> filter (λ m, depth m = Z.of_nat d) ns))
                  <$> out !! d) ∧
          concat out' ≡ₚ concat out ++ (node <$> ns).
Proof.
  induction ns as [|n ns IH]; intros out Hns; simpl.
  - exists out. split; [done|]. split; [done|]. split.
    + intros d. destruct (out !! d); simpl; [|done]. by rewrite app_nil_r.
    + by rewrite app_nil_r.
  - apply Forall_cons in Hns as [Hn Hns].
    destruct (proj2 (index_is_Some out (depth n)) Hn) as [b Hb].
    rewrite Hb. apply index_Some in Hb as [Hn0 Hb].
    destruct (IH (<[Z.to_nat (depth n) := b ++ [node n]]> out))
      as (out' & -> & Hlen & Hlookup & Hperm).
    { unfold len in *. by rewrite length_insert. }
    exists out'. split; [done|]. split; [by rewrite Hlen, length_insert|].
    split.
    + intros d. rewrite Hlookup, filter_cons.
      destruct (decide (d = Z.to_nat (depth n))) as [->|Hd].
      * rewrite list_lookup_insert_eq by (by eapply lookup_lt_Some).
        rewrite Hb, decide_True by lia. simpl. by rewrite <- app_assoc.
      * rewrite list_lookup_insert_ne by done.
        by rewrite decide_False by lia.
    + rewrite Hperm, (concat_insert_snoc out _ b (node n) Hb).
      by rewrite <- app_assoc.
Qed.

Lemma wf_depth_bounds (g : Graph) :
  wf g → ∀ ni, ni ∈ g_nodes g → 0 ≤ depth ni ≤ g_maxDepth g.
Proof.
  intros Hwf ni Hni. split.
  - apply list_elem_of_lookup in Hni as [k Hk]. by eapply wf_depth_nonneg.
  - rewrite (wf_maxDepth g Hwf).
    apply maxOf_ge_elem, list_elem_of_fmap. by exists ni.
Qed.

Lemma groupNodesByDepth_spec (g : Graph) :
  wf g →
  ∃ out,
    groupNodesByDepth g = Some out ∧
    len out = g_maxDepth g + 1 ∧
    (∀ d, (d < length out)%nat →
          out !! d =
          Some (node <$> filter (λ m, depth m = Z.of_nat d) (g_nodes g))) ∧
    concat out ≡ₚ node <$> g_nodes g.
Proof.
  intros Hwf. pose proof (wf_depth_bounds g Hwf) as Hbound.
  assert (H0 : 0 ≤ g_maxDepth g)
    by (rewrite (wf_maxDepth g Hwf); apply maxOf_ge_init).
  unfold groupNodesByDepth. rewrite decide_True by lia.
  destruct (fillBuckets_spec (g_nodes g)
              (replicate (Z.to_nat (g_maxDepth g + 1)) []))
    as (out & -> & Hlen & Hlookup & Hperm).
  { apply Forall_forall. intros ni Hni. apply Hbound in Hni.
    unfold len. rewrite length_replicate. lia. }
  rewrite length_replicate in Hlen.
  rewrite concat_replicate_nil in Hperm. simpl in Hperm.
  exists out. split; [done|]. split; [unfold len; lia|]. split; [|done].
  intros d Hd. rewrite Hlookup, lookup_replicate_2 by lia. done.
Qed.

(** ** Descendants and the history *)

Lemma traced_cs_lookup (cs : list call) (g : Graph) (k : nat) (ni : nodeInfo) :
  traced cs g → g_nodes g !! k = Some ni → ∃ c, cs !! k = Some c.
Proof.
  intros Htr Hk. apply lookup_lt_is_Some_2.
  rewrite (tr_length cs g Htr). by eapply lookup_lt_Some.
Qed.

Lemma operandOf_inv (cs : list call) (g : Graph) (a : Z) (k : nat) :
  traced cs g → operandOf cs a (Z.of_nat k) →
  ∃ c, cs !! k = Some c ∧ a ∈ operandIds c ∧ 0 ≤ a < Z.of_nat k.
Proof.
  intros Htr (c & Hc & Ha). rewrite index_of_nat in Hc.
  exists c. split; [done|]. split; [done|]. by eapply tr_operands.
Qed.

Lemma traced_dependsOn (cs : list call) (g : Graph) :
  wf g → traced cs g →
  ∀ k ni, g_nodes g !! k = Some ni →
          ∀ d, d ∈ descendants ni ↔ dependsOn cs (Z.of_nat k) d.
Proof.
  intros Hwf Htr k. induction k as [k IH] using lt_wf_ind.
  intros ni Hk d. destruct (traced_cs_lookup cs g k ni Htr Hk) as [c Hc].
  rewrite (tr_descendants cs g Htr k c ni Hc Hk). split.
  - intros [->|(a & Ha & Hd)]; [reflexivity|].
    apply elem_of_descendantsAt in Hd as (k' & na & -> & Hk' & Hd).
    pose proof (tr_operands cs g Htr k c _ Hc Ha).
    apply (rtc_l _ _ (Z.of_nat k')).
    + exists c. by rewrite index_of_nat.
    + apply (IH k' ltac:(lia) na Hk'). done.
  - intros Hdep. apply rtc_inv in Hdep as [<-|(y & Hy & Hdep)]; [by left|].
    right. apply (operandOf_inv cs g y k Htr) in Hy as (c' & Hc' & Hy & Hrange).
    assert (c' = c) as -> by congruence.
    exists y. split; [done|].
    destruct (lookup_lt_is_Some_2 (g_nodes g) (Z.to_nat y)) as [ny Hny].
    { apply lookup_lt_Some in Hk. lia. }
    rewrite <- (Z2Nat.id y) by lia.
    rewrite (descendantsAt_lookup g _ ny Hny).
    apply (IH (Z.to_nat y) ltac:(lia) ny Hny).
    by rewrite Z2Nat.id by lia.
Qed.

Lemma consumer_iff_consumes (cs : list call) (g : Graph) (o : nat)
    (m : nodeInfo) (n : Z) :
  wf g → traced cs g → g_nodes g !! o = Some m →
  n ∈ descendants m ∧ Id (node m) ≠ n ↔ consumes cs (Z.of_nat o) n.
Proof.
  intros Hwf Htr Ho. destruct (traced_cs_lookup cs g o m Htr Ho) as [c Hc].
  rewrite (wf_id g Hwf o m Ho). split.
  - intros [Hin Hne].
    apply (tr_descendants cs g Htr o c m Hc Ho) in Hin
      as [->|(a & Ha & Hd)]; [done|].
    exists a. split; [exists c; by rewrite index_of_nat|].
    apply elem_of_descendantsAt in Hd as (k' & na & -> & Hk' & Hd).
    by apply (traced_dependsOn cs g Hwf Htr k' na Hk').
  - intros (a & Hop & Hdep).
    apply (operandOf_inv cs g a o Htr) in Hop as (c' & Hc' & Ha & Hrange).
    assert (c' = c) as -> by congruence.
    destruct (lookup_lt_is_Some_2 (g_nodes g) (Z.to_nat a)) as [na Hna].
    { apply lookup_lt_Some in Ho. lia. }
    assert (Hd : n ∈ descendants na).
    { apply (traced_dependsOn cs g Hwf Htr _ na Hna).
      by rewrite Z2Nat.id by lia. }
    pose proof (wf_range g Hwf _ na n Hna Hd). split; [|lia].
    apply (tr_descendants cs g Htr o c m Hc Ho). right.
    exists a. split; [done|].
    rewrite <- (Z2Nat.id a) by lia.
    by rewrite (descendantsAt_lookup g _ na Hna).
Qed.

(** * The properties *)

(** C4.  Whatever the sequence of constructor calls that return on a new
    graph, the identities of the nodes they return are 0, 1, 2, ... in call
    order; the arena holds exactly these nodes, each in the slot of its
    identity; and a slot exists for every identity below [maxId]. *)
Theorem identities_dense_in_creation_order
    (cs : list call) (g : Graph) (ns : list Node) :
  run cs NewGraph = Returned g ns →
  Id <$> ns = seqZ 0 (len cs) ∧
  node <$> g_nodes g = ns ∧
  g_maxId g = len cs ∧
  len (g_nodes g) = len cs ∧
  (∀ i, 0 ≤ i < g_maxId g →
        ∃ ni, index (g_nodes g) i = Some ni ∧ Id (node ni) = i).
Proof.
  intros Hrun. destruct (run_invariant cs g ns Hrun) as (Hwf & Htr & Hns).
  pose proof (tr_length cs g Htr) as Hlen.
  pose proof (wf_maxId g Hwf) as Hmax. unfold len in *.
  split; [|split; [done|split; [lia|split; [lia|]]]].
  - rewrite <- Hns, (arena_ids g Hwf). unfold len. by rewrite Hlen.
  - intros i Hi.
    destruct (lookup_lt_is_Some_2 (g_nodes g) (Z.to_nat i)) as [ni Hni];
      [lia|].
    exists ni. split.
    + apply index_Some. split; [lia | done].
    + rewrite (wf_id g Hwf _ ni Hni). lia.
Qed.

(** C10.  In every graph built by returning constructor calls, the
    [descendants] of the record in slot [i] list [i] itself, list no
    identity twice, list only identities between 0 and [i], and are closed:
    they include the [descendants] of every record they list. *)
Theorem descendants_closed_sets
    (cs : list call) (g : Graph) (ns : list Node) (i : nat) (ni : nodeInfo) :
  run cs NewGraph = Returned g ns →
  g_nodes g !! i = Some ni →
  Z.of_nat i ∈ descendants ni ∧
  NoDup (descendants ni) ∧
  (∀ d, d ∈ descendants ni → 0 ≤ d ≤ Z.of_nat i) ∧
  (∀ j nj, Z.of_nat j ∈ descendants ni → g_nodes g !! j = Some nj →
           ∀ d, d ∈ descendants nj → d ∈ descendants ni).
Proof.
  intros Hrun Hi. destruct (run_invariant cs g ns Hrun) as (Hwf & _ & _).
  split; [by eapply wf_self|]. split; [by eapply wf_NoDup|].
  split; [intros d; by eapply wf_range|].
  intros j nj Hj Hnj. by eapply (wf_closed g Hwf i ni j nj).
Qed.

(** C6.  [Reset] leaves exactly the graph of [NewGraph], whatever the graph
    it is called on, so every sequence of calls run after a [Reset] ends as
    it does on a new graph: the same outcome, the same returned nodes and
    identities, the same arena with the same depths.  [Reset] assigns the
    three fields of the graph and writes through no node: a value wrapped
    by a [Wrapper] is not reached. *)
Theorem Reset_is_NewGraph (g : Graph) :
  Reset g = NewGraph ∧
  g_nodes (Reset g) = [] ∧ g_maxId (Reset g) = 0 ∧ g_maxDepth (Reset g) = 0 ∧
  (∀ cs, run cs (Reset g) = run cs NewGraph).
Proof. by repeat split. Qed.

(** C7.  On a graph built by returning constructor calls, [NewOperator]
    with an operand whose identity is at or beyond the arena length panics
    at that call: it appends and bumps nothing, and the identity it drew
    stays drawn.  With every operand identity inside the arena it
    returns. *)
Theorem NewOperator_panics_outside_returns_inside
    (cs : list call) (g : Graph) (ns : list Node)
    (f : Function) (operands : list Node) :
  run cs NewGraph = Returned g ns →
  (Exists (λ o, len (g_nodes g) ≤ Id o) operands →
   ∃ g', NewOperator f operands g = Panicked g' ∧
         g_nodes g' = g_nodes g ∧ g_maxDepth g' = g_maxDepth g ∧
         g_maxId g' = g_maxId g + 1) ∧
  (Forall (λ o, inArena g (Id o)) operands →
   ∃ g' op, NewOperator f operands g = Returned g' op).
Proof.
  intros Hrun. destruct (run_invariant cs g ns Hrun) as (Hwf & _ & _). split.
  - intros Hex. exists (afterPanic g). split; [|done].
    apply NewOperator_panics. eapply Exists_impl; [exact Hex|].
    intros o Ho. unfold inArena. simpl in Ho. lia.
  - intros Hall.
    destruct (NewOperator_returns f operands g
                (wf_descendantsInArena g Hwf) Hall) as [-> _].
    by eexists _, _.
Qed.

(** C3.  On a graph built by returning constructor calls and operands of
    its arena, [NewOperator] returns.  With [U] the union of the operands'
    [descendants], every identity once: the depth of each record of [U]
    has grown by exactly 1 and no other depth has changed; [maxDepth] is the
    largest of its former value and the new depths of [U]; and the arena
    has one more record, whose [descendants] are [U] and the new identity,
    whose depth is 0, and whose operator carries the result of [Forward]
    and the disjunction of the operands' [RequiresGrad]. *)
Theorem NewOperator_postcondition
    (cs : list call) (g : Graph) (ns : list Node)
    (f : Function) (operands : list Node) :
  run cs NewGraph = Returned g ns →
  Forall (λ o, inArena g (Id o)) operands →
  ∃ U g' op,
    NewOperator f operands g = Returned g' op ∧
    NoDup U ∧
    (∀ x, x ∈ U ↔ ∃ o, o ∈ operands ∧ x ∈ descendantsAt g (Id o)) ∧
    (∀ i, inArena g i →
          depthAt g' i = depthAt g i + (if decide (i ∈ U) then 1 else 0)) ∧
    g_maxDepth g' = maxOf (g_maxDepth g) (depthAt g' <$> U) ∧
    g_nodes g' !! length (g_nodes g) =
      Some {| node := NOperator op; depth := 0;
              descendants := U ++ [o_id op] |} ∧
    length (g_nodes g') = S (length (g_nodes g)) ∧
    o_id op = len (g_nodes g) ∧
    o_function op = f ∧
    o_value op = Forward f ∧
    o_requiresGrad op = existsb RequiresGrad operands.
Proof.
  intros Hrun Hops. destruct (run_invariant cs g ns Hrun) as (Hwf & _ & _).
  pose proof (wf_descendantsInArena g Hwf) as Hns.
  destruct (NewOperator_returns f operands g Hns Hops) as (Hret & Hnd & _).
  exists (unionDescendants g operands), (afterNewOperator f operands g),
    (newOperator f operands g).
  split; [done|]. split; [done|].
  split; [apply elem_of_unionDescendants|].
  split; [intros i Hi; by apply depthAt_extend|].
  split.
  { simpl. f_equal. apply list_fmap_ext. intros k d Hd.
    assert (Hin : d ∈ unionDescendants g operands)
      by (apply list_elem_of_lookup; by exists k).
    unfold afterNewOperator. rewrite depthAt_extend
      by by eapply unionDescendants_inArena.
    by rewrite decide_True. }
  split.
  { simpl. rewrite lookup_app_r by (rewrite bump_length; lia).
    by rewrite bump_length, Nat.sub_diag. }
  split.
  { simpl. rewrite length_app, bump_length. simpl. lia. }
  split; [apply (wf_maxId g Hwf) | done].
Qed.

(** C1.  Take any sequence of returning constructor calls, one of them a
    [NewOperator], and the graph at any later point of the sequence.  The
    depth recorded for the operator that call built is strictly less than
    the depth recorded for each of the call's operands. *)
Theorem operator_depth_below_operand_depth
    (cs later : list call) (f : Function) (operands : list Node)
    (g : Graph) (ns : list Node) (a : Node) :
  run (cs ++ CallNewOperator f operands :: later) NewGraph = Returned g ns →
  a ∈ operands →
  ∃ no na op,
    index (g_nodes g) (len cs) = Some no ∧
    node no = NOperator op ∧ o_function op = f ∧
    index (g_nodes g) (Id a) = Some na ∧
    depth no < depth na.
Proof.
  intros Hrun Ha.
  destruct (run_invariant _ g ns Hrun) as (Hwf & Htr & _).
  pose proof (tr_length _ g Htr) as Hlen.
  rewrite length_app in Hlen. simpl in Hlen.
  assert (Hc : (cs ++ CallNewOperator f operands :: later) !! length cs =
               Some (CallNewOperator f operands)).
  { rewrite lookup_app_r by lia. by rewrite Nat.sub_diag. }
  destruct (lookup_lt_is_Some_2 (g_nodes g) (length cs)) as [no Hno]; [lia|].
  assert (HaId : Id a ∈ operandIds (CallNewOperator f operands)).
  { simpl. apply list_elem_of_fmap. by exists a. }
  pose proof (tr_operands _ g Htr _ _ _ Hc HaId) as Hrange.
  destruct (lookup_lt_is_Some_2 (g_nodes g) (Z.to_nat (Id a))) as [na Hna];
    [lia|].
  pose proof (tr_builds _ g Htr _ _ _ Hc Hno) as Hb.
  destruct (node no) as [v|op|w] eqn:Hnode; simpl in Hb; try done.
  exists no, na, op.
  split; [unfold len; by rewrite index_of_nat|].
  split; [done|]. split; [by destruct Hb as (? & _)|].
  split; [apply index_Some; split; [lia | done]|].
  apply (wf_order g Hwf (length cs) no (Z.to_nat (Id a)) na Hno Hna); [|lia].
  apply (tr_descendants _ g Htr _ _ _ Hc Hno). right.
  exists (Id a). split; [done|].
  rewrite <- (Z2Nat.id (Id a)) at 2 by lia.
  rewrite (descendantsAt_lookup g _ na Hna).
  rewrite Z2Nat.id by lia.
  pose proof (wf_self g Hwf _ na Hna) as Hself.
  by rewrite Z2Nat.id in Hself by lia.
Qed.

(** C8.  Between a graph built by returning constructor calls and the graph
    any further returning calls make of it, every record stays in its slot
    with the same node (so the same identity) and the same [descendants],
    and its depth has not decreased; the arena has not shrunk.  A call that
    panics leaves the arena as it was.  [Reset] empties the arena as a
    whole. *)
Theorem records_change_by_growing_depth_only
    (cs later : list call) (g g' : Graph) (ns ns' : list Node)
    (k : nat) (ni : nodeInfo) :
  run cs NewGraph = Returned g ns →
  run (cs ++ later) NewGraph = Returned g' ns' →
  g_nodes g !! k = Some ni →
  (∃ ni', g_nodes g' !! k = Some ni' ∧
          node ni' = node ni ∧ Id (node ni') = Z.of_nat k ∧
          descendants ni' = descendants ni ∧
          depth ni ≤ depth ni') ∧
  (length (g_nodes g) ≤ length (g_nodes g'))%nat ∧
  (∀ c g'', exec c g = Panicked g'' → g_nodes g'' = g_nodes g) ∧
  g_nodes (Reset g') = [].
Proof.
  intros Hrun Hrun' Hk.
  destruct (run_invariant cs g ns Hrun) as (Hwf & Htr & _).
  destruct (run_invariant _ g' ns' Hrun') as (_ & Htr' & _).
  unfold run in Hrun'. rewrite run_from_app in Hrun'.
  fold (run cs NewGraph) in Hrun'. rewrite Hrun in Hrun'.
  destruct (run_from_frame later g ns g' ns' k ni Hwf Hrun' Hk)
    as (ni' & Hk' & Hnode & Hdesc & Hdepth).
  split; [|split; [|split; [|done]]].
  - exists ni'. repeat split; try done.
    rewrite Hnode. by eapply wf_id.
  - rewrite <- (tr_length _ _ Htr), <- (tr_length _ _ Htr'), length_app. lia.
  - intros c g'' Hexec.
    destruct (decide (Forall (inArena g) (operandIds c))) as [Hops|Hops].
    + by rewrite exec_returns in Hexec
        by (done || by apply wf_descendantsInArena).
    + rewrite exec_panics in Hexec by done. by injection Hexec as <-.
Qed.

(** C9.  In every graph built by returning constructor calls, [maxDepth]
    is the largest depth of the arena (0 when it is empty) and bounds every
    record's depth, so [groupNodesByDepth] does not panic.  It returns
    [maxDepth + 1] buckets; bucket [d] holds the nodes of the records of
    depth [d], in arena order; and the buckets together hold every node of
    the arena exactly once. *)
Theorem groupNodesByDepth_partitions_by_depth
    (cs : list call) (g : Graph) (ns : list Node) :
  run cs NewGraph = Returned g ns →
  g_maxDepth g = maxOf 0 (depth <$> g_nodes g) ∧
  (∀ ni, ni ∈ g_nodes g → 0 ≤ depth ni ≤ g_maxDepth g) ∧
  ∃ out,
    groupNodesByDepth g = Some out ∧
    len out = g_maxDepth g + 1 ∧
    (∀ d, (d < length out)%nat →
          out !! d =
          Some (node <$> filter (λ m, depth m = Z.of_nat d) (g_nodes g))) ∧
    concat out ≡ₚ node <$> g_nodes g ∧
    NoDup (concat out).
Proof.
  intros Hrun. destruct (run_invariant cs g ns Hrun) as (Hwf & _ & Hns).
  split; [by apply wf_maxDepth|]. split; [by apply wf_depth_bounds|].
  destruct (groupNodesByDepth_spec g Hwf) as (out & Hout & Hlen & Hd & Hperm).
  exists out. split; [done|]. split; [done|]. split; [done|].
  split; [done|].
  rewrite Hperm. apply (NoDup_fmap_1 Id).
  rewrite (arena_ids g Hwf). apply NoDup_seqZ.
Qed.

(** C2.  In every graph built by returning constructor calls, the depth
    recorded for a node [n] is the number of the nodes [o] that consume it,
    that is, whose call lists an operand with [n] in its dependency
    closure; each of them was built by [NewOperator].  In the diamond
    [c = f(a, b)], [d = h(a, c)] the depth of [a] ends at 2 and the depth of
    [c] at 1. *)
Theorem depth_counts_consuming_operators :
  (∀ (cs : list call) (g : Graph) (ns : list Node) (n : nat) (ni : nodeInfo),
     run cs NewGraph = Returned g ns →
     g_nodes g !! n = Some ni →
     ∃ l : list Z,
       NoDup l ∧
       (∀ o, o ∈ l ↔ consumes cs o (Z.of_nat n)) ∧
       (∀ o, o ∈ l → ∃ f operands,
                       index cs o = Some (CallNewOperator f operands)) ∧
       depth ni = len l) ∧
  (∀ (va vb : Matrix) (ra rb : bool) (f h : Function),
     ∃ g a b c d,
       diamond va vb ra rb f h = Returned g (a, b, c, d) ∧
       depthAt g (v_id a) = 2 ∧ depthAt g (o_id c) = 1).
Proof.
  split.
  - intros cs g ns n ni Hrun Hn.
    destruct (run_invariant cs g ns Hrun) as (Hwf & Htr & _).
    exists ((λ m, Id (node m)) <$> consumerRecords g (Z.of_nat n)).
    assert (Hmem : ∀ o,
               o ∈ (λ m, Id (node m)) <$> consumerRecords g (Z.of_nat n) ↔
               consumes cs o (Z.of_nat n)).
    { intros o. rewrite list_elem_of_fmap. unfold consumerRecords. split.
      - intros (m & -> & Hm). apply list_elem_of_filter in Hm as [HP Hm].
        apply list_elem_of_lookup in Hm as [k Hk].
        rewrite (wf_id g Hwf k m Hk).
        by apply (consumer_iff_consumes cs g k m _ Hwf Htr Hk).
      - intros Hcons. pose proof Hcons as (a & (c & Hc & _) & _).
        apply index_Some in Hc as [Ho Hc].
        destruct (lookup_lt_is_Some_2 (g_nodes g) (Z.to_nat o)) as [m Hm].
        { rewrite <- (tr_length cs g Htr). by eapply lookup_lt_Some. }
        exists m. split; [rewrite (wf_id g Hwf _ m Hm); lia|].
        apply list_elem_of_filter. split.
        + apply (consumer_iff_consumes cs g _ m _ Hwf Htr Hm).
          by rewrite Z2Nat.id.
        + apply list_elem_of_lookup. by eexists. }
    split; [|split; [done|split]].
    + apply (sublist_NoDup _ ((Id ∘ node) <$> g_nodes g)).
      * rewrite list_fmap_compose, (arena_ids g Hwf). apply NoDup_seqZ.
      * apply fmap_sublist, sublist_filter.
    + intros o Ho. apply Hmem in Ho as (a & (c & Hc & Ha) & _).
      destruct c as [? ?|?|f operands|?|?];
        try by apply elem_of_nil in Ha.
      by exists f, operands.
    + rewrite (wf_count g Hwf n ni Hn). unfold len.
      by rewrite length_fmap.
  - intros va vb ra rb f h.
    let r := eval vm_compute in (diamond va vb ra rb f h) in
    match r with
    | Returned ?g (?a, ?b, ?c, ?d) => exists g, a, b, c, d
    end.
    split; [|split]; vm_compute; reflexivity.
Qed.

(** ** The backward pass is additive in its seed *)

Section BackwardAdditive.

(** The sum of gradients is associative and commutative, and a kernel's
    [Backward] answers one contribution per operand and is additive in the
    gradient it is given. *)
Hypothesis mat_Add_assoc :
  ∀ x y z, mat_Add x (mat_Add y z) = mat_Add (mat_Add x y) z.
Hypothesis mat_Add_comm : ∀ x y, mat_Add x y = mat_Add y x.
Hypothesis kernelBackward_length :
  ∀ f gy, length (kernelBackward f gy) = length (operandsOf f).
Hypothesis kernelBackward_additive :
  ∀ f x y,
    kernelBackward f (mat_Add x y) =
    zip_with mat_Add (kernelBackward f x) (kernelBackward f y).

Lemma accumulated_again (old : option Matrix) (a c : Matrix) :
  mat_Add (accumulated old a) c = accumulated old (mat_Add a c).
Proof. destruct old as [x|]; simpl; by rewrite ?mat_Add_assoc. Qed.

Lemma mat_Add_interchange (a b c d : Matrix) :
  mat_Add (mat_Add a b) (mat_Add c d) = mat_Add (mat_Add a c) (mat_Add b d).
Proof.
  rewrite <- (mat_Add_assoc a b), (mat_Add_assoc b c), (mat_Add_comm b c).
  by rewrite <- (mat_Add_assoc c b), (mat_Add_assoc a c).
Qed.

Lemma accumulate_additive (b0 b0' A B C : buffers) (s : slot) (a b : Matrix) :
  additive b0 b0' A B C →
  additive b0 b0' (accumulate A s a) (accumulate B s b)
    (accumulate C s (mat_Add a b)).
Proof.
  intros H s'. unfold accumulate.
  destruct (decide (s' = s)) as [->|Hne]; [|apply H]. right.
  destruct (H s) as [(-> & -> & ->)|(a0 & b1 & -> & -> & ->)].
  - by exists a, b.
  - exists (mat_Add a0 a), (mat_Add b1 b). simpl.
    by rewrite !accumulated_again, mat_Add_interchange.
Qed.

Lemma PropagateGrad_additive (b0 b0' A B C : buffers) (n : Node)
    (a b : Matrix) :
  additive b0 b0' A B C →
  additive b0 b0' (PropagateGrad n a A) (PropagateGrad n b B)
    (PropagateGrad n (mat_Add a b) C).
Proof.
  intros H. unfold PropagateGrad.
  destruct (slotOf n) as [s|]; [by apply accumulate_additive | done].
Qed.

Lemma contributions_additive (b0 b0' : buffers) (ops : list Node) :
  ∀ (pa pb : list Matrix) (A B C : buffers),
    length pa = length pb →
    additive b0 b0' A B C →
    additive b0 b0'
      (foldl (λ b ac, PropagateGrad (fst ac) (snd ac) b) A (zip ops pa))
      (foldl (λ b ac, PropagateGrad (fst ac) (snd ac) b) B (zip ops pb))
      (foldl (λ b ac, PropagateGrad (fst ac) (snd ac) b) C
             (zip ops (zip_with mat_Add pa pb))).
Proof.
  induction ops as [|o ops IH]; intros pa pb A B C Hlen H; [done|].
  destruct pa as [|a pa], pb as [|b pb]; try done. simpl.
  apply IH; [by injection Hlen|]. by apply PropagateGrad_additive.
Qed.

Lemma backwardOperator_additive (b0 b0' A B C : buffers) (o : Operator) :
  b0 (NodeSlot (o_id o)) = None → b0' (NodeSlot (o_id o)) = None →
  additive b0 b0' A B C →
  additive b0 b0' (backwardOperator o A) (backwardOperator o B)
    (backwardOperator o C).
Proof.
  intros H0 H0' H. unfold backwardOperator.
  destruct (o_requiresGrad o); [|done].
  destruct (H (NodeSlot (o_id o))) as [(-> & -> & ->)|(a & b & -> & -> & ->)].
  - by rewrite H0, H0'.
  - rewrite H0, H0'. simpl. rewrite kernelBackward_additive.
    apply contributions_additive; [|done].
    by rewrite !kernelBackward_length.
Qed.

Lemma bucket_additive (b0 b0' : buffers) (bucket : list Node) :
  operatorsEmpty bucket b0 → operatorsEmpty bucket b0' →
  ∀ A B C,
    additive b0 b0' A B C →
    additive b0 b0' (foldl backwardNode A bucket) (foldl backwardNode B bucket)
      (foldl backwardNode C bucket).
Proof.
  induction bucket as [|n bucket IH]; intros H0 H0' A B C H; [done|].
  simpl. apply IH.
  - intros o Ho. apply H0. by right.
  - intros o Ho. apply H0'. by right.
  - destruct n as [v|o|w]; simpl; try done.
    apply backwardOperator_additive; [apply H0 | apply H0' | done]; by left.
Qed.

Lemma buckets_additive (b0 b0' : buffers) (buckets : list (list Node)) :
  operatorsEmpty (concat buckets) b0 → operatorsEmpty (concat buckets) b0' →
  ∀ A B C,
    additive b0 b0' A B C →
    additive b0 b0'
      (foldl (λ b bucket, foldl backwardNode b bucket) A buckets)
      (foldl (λ b bucket, foldl backwardNode b bucket) B buckets)
      (foldl (λ b bucket, foldl backwardNode b bucket) C buckets).
Proof.
  induction buckets as [|bucket buckets IH]; intros H0 H0' A B C H; [done|].
  simpl in *. apply IH.
  - intros o Ho. apply H0, elem_of_app. by right.
  - intros o Ho. apply H0', elem_of_app. by right.
  - apply bucket_additive; [| |done]; intros o Ho;
      [apply H0 | apply H0']; apply elem_of_app; by left.
Qed.

Lemma operatorSlot_of_operator (g : Graph) (o : Operator) :
  wf g → NOperator o ∈ node <$> g_nodes g →
  operatorSlot g (NodeSlot (o_id o)) = true.
Proof.
  intros Hwf Ho. apply list_elem_of_fmap in Ho as (ni & Hnode & Hni).
  apply list_elem_of_lookup in Hni as [k Hk].
  pose proof (wf_id g Hwf k ni Hk) as Hid. rewrite <- Hnode in Hid.
  simpl in Hid. simpl. by rewrite Hid, index_of_nat, Hk, <- Hnode.
Qed.

Lemma operatorSlot_of_leaf (g : Graph) (l : Node) (s : slot) :
  wf g → l ∈ node <$> g_nodes g → isOperator l = false →
  slotOf l = Some s → operatorSlot g s = false.
Proof.
  intros Hwf Hl Hleaf Hs. apply list_elem_of_fmap in Hl as (ni & Hnode & Hni).
  apply list_elem_of_lookup in Hni as [k Hk].
  pose proof (wf_id g Hwf k ni Hk) as Hid. rewrite <- Hnode in Hid.
  destruct l as [v|o|w]; simpl in *; try done.
  - destruct (v_requiresGrad v); [|done]. injection Hs as <-. simpl.
    by rewrite Hid, index_of_nat, Hk, <- Hnode.
  - destruct (w_wrapGrad w); [|done]. by injection Hs as <-.
Qed.

Lemma Backward_additive (g : Graph) (out : Node) (g1 g2 : Matrix)
    (b0 b0' : buffers) :
  wf g →
  (∀ s, operatorSlot g s = true → b0 s = None) →
  (∀ s, operatorSlot g s = true → b0' s = None) →
  additive b0 b0' (Backward g out g1 b0) (Backward g out g2 b0')
    (Backward g out (mat_Add g1 g2) b0).
Proof.
  intros Hwf H0 H0'. unfold Backward, BackwardAll.
  destruct (groupNodesByDepth_spec g Hwf) as (out' & -> & _ & _ & Hperm).
  apply buckets_additive.
  - intros o Ho. rewrite Hperm in Ho.
    by apply H0, operatorSlot_of_operator.
  - intros o Ho. rewrite Hperm in Ho.
    by apply H0', operatorSlot_of_operator.
  - apply PropagateGrad_additive. intros s. by left.
Qed.

(** C5, as amended.  On a graph built by returning constructor calls whose
    operators hold no gradient yet: running backward from [out] seeded with
    [g1], clearing the buffers of the operators and no other, and running
    backward from [out] seeded with [g2] leaves every leaf of the graph
    with the gradient that one backward run seeded with the sum of [g1] and
    [g2] leaves it. *)
Theorem Backward_additive_once_operators_cleared
    (cs : list call) (g : Graph) (ns : list Node) (out l : Node)
    (g1 g2 : Matrix) (b0 : buffers) :
  run cs NewGraph = Returned g ns →
  (∀ s, operatorSlot g s = true → b0 s = None) →
  l ∈ ns → isOperator l = false →
  gradOf l (Backward g out g2 (clearOperators g (Backward g out g1 b0))) =
  gradOf l (Backward g out (mat_Add g1 g2) b0).
Proof.
  intros Hrun H0 Hl Hleaf.
  destruct (run_invariant cs g ns Hrun) as (Hwf & _ & Hns).
  rewrite <- Hns in Hl. unfold gradOf.
  destruct (slotOf l) as [s|] eqn:Hs; [|done].
  pose proof (operatorSlot_of_leaf g l s Hwf Hl Hleaf Hs) as Hnot.
  assert (H0' : ∀ s', operatorSlot g s' = true →
                      clearOperators g (Backward g out g1 b0) s' = None).
  { intros s' Hs'. unfold clearOperators. by rewrite Hs'. }
  destruct (Backward_additive g out g1 g2 b0 _ Hwf H0 H0' s)
    as [(HA & -> & ->)|(a & b & HA & -> & ->)];
    unfold clearOperators; rewrite Hnot, HA; [done|].
  simpl. by rewrite accumulated_again.
Qed.

End BackwardAdditive.

(** * Further properties of the graph *)

(** The sum of the lengths that [sumDescendants] adds up. *)
Definition descendantsTotal (g : Graph) (operands : list Node) : Z :=
  foldr Z.add 0 ((λ o, len (descendantsAt g (Id o))) <$> operands).

Lemma descendantsTotal_cons (g : Graph) (o : Node) (os : list Node) :
  descendantsTotal g (o :: os) =
  len (descendantsAt g (Id o)) + descendantsTotal g os.
Proof. reflexivity. Qed.

Lemma sumDescendants_from_total (g : Graph) (operands : list Node) :
  ∀ sum, Forall (λ o, inArena g (Id o)) operands →
         sumDescendants_from g operands sum =
         Some (sum + descendantsTotal g operands).
Proof.
  induction operands as [|o os IH]; intros sum Hops; simpl.
  - unfold descendantsTotal. simpl. f_equal. lia.
  - apply Forall_cons in Hops as [Ho Hos].
    destruct (proj2 (index_is_Some (g_nodes g) (Id o)) Ho) as [ni Hni].
    rewrite Hni, IH, descendantsTotal_cons by done.
    unfold descendantsAt. rewrite Hni. simpl. f_equal. lia.
Qed.

Lemma length_foldl_addNew (ds : list Z) :
  ∀ acc, (length (foldl addNew acc ds) ≤ length acc + length ds)%nat.
Proof.
  induction ds as [|d ds IH]; intros acc; simpl; [lia|].
  etransitivity; [apply IH|]. unfold addNew. case_decide.
  - lia.
  - rewrite length_app. simpl. lia.
Qed.

Lemma length_union_from (g : Graph) (operands : list Node) :
  ∀ acc,
    len (foldl (λ acc o, foldl addNew acc (descendantsAt g (Id o)))
               acc operands) ≤
    len acc + descendantsTotal g operands.
Proof.
  induction operands as [|o os IH]; intros acc; simpl.
  - unfold descendantsTotal. simpl. lia.
  - etransitivity; [apply IH|]. rewrite descendantsTotal_cons.
    pose proof (length_foldl_addNew (descendantsAt g (Id o)) acc).
    unfold len in *. lia.
Qed.

(** X1.  On a graph built by returning constructor calls and operands of
    its arena, [sumDescendants] returns the sum of the lengths of the
    operands' [descendants], and the [descendants] of the record that
    [NewOperator] then appends are at most one longer: the capacity that
    [NewOperator] reserves is never exceeded. *)
Theorem sumDescendants_bounds_new_descendants
    (cs : list call) (g : Graph) (ns : list Node)
    (f : Function) (operands : list Node) :
  run cs NewGraph = Returned g ns →
  Forall (λ o, inArena g (Id o)) operands →
  ∃ g' op ni,
    sumDescendants g operands = Some (descendantsTotal g operands) ∧
    NewOperator f operands g = Returned g' op ∧
    g_nodes g' !! length (g_nodes g) = Some ni ∧
    node ni = NOperator op ∧
    len (descendants ni) ≤ descendantsTotal g operands + 1.
Proof.
  intros Hrun Hops. destruct (run_invariant cs g ns Hrun) as (Hwf & _ & _).
  destruct (NewOperator_returns f operands g
              (wf_descendantsInArena g Hwf) Hops) as (Hret & _ & _).
  eexists _, _, _. split.
  { unfold sumDescendants. by rewrite sumDescendants_from_total. }
  split; [exact Hret|]. split.
  { simpl. rewrite lookup_app_r by (rewrite bump_length; lia).
    by rewrite bump_length, Nat.sub_diag. }
  split; [done|]. simpl.
  pose proof (length_union_from g operands []) as Hlen.
  fold (unionDescendants g operands) in Hlen.
  unfold len in *. rewrite length_app. simpl in *. lia.
Qed.

(** X2.  In a graph built by returning constructor calls, the [descendants]
    of the record in slot [k] are exactly the dependency closure of node
    [k] in the history of calls: [k] itself, the operands of the call that
    built it, their operands, and so on. *)
Theorem descendants_are_the_dependency_closure
    (cs : list call) (g : Graph) (ns : list Node) (k : nat) (ni : nodeInfo)
    (d : Z) :
  run cs NewGraph = Returned g ns →
  g_nodes g !! k = Some ni →
  d ∈ descendants ni ↔ dependsOn cs (Z.of_nat k) d.
Proof.
  intros Hrun Hk. destruct (run_invariant cs g ns Hrun) as (Hwf & Htr & _).
  by apply (traced_dependsOn cs g Hwf Htr k ni Hk).
Qed.

Lemma consumerRecords_after (g : Graph) (k : nat) :
  wf g → (k < length (g_nodes g))%nat →
  (length (consumerRecords g (Z.of_nat k)) ≤ length (g_nodes g) - S k)%nat.
Proof.
  intros Hwf Hk. unfold consumerRecords.
  rewrite <- (take_drop (S k) (g_nodes g)) at 1. rewrite filter_app, length_app.
  assert (Hnone : filter (λ m, Z.of_nat k ∈ descendants m ∧
                               Id (node m) ≠ Z.of_nat k)
                         (take (S k) (g_nodes g)) = []).
  { destruct (filter _ (take (S k) (g_nodes g))) as [|m ms] eqn:Hf; [done|].
    exfalso. assert (Hm : m ∈ m :: ms) by left.
    rewrite <- Hf in Hm. apply list_elem_of_filter in Hm as [[Hin Hne] Hm].
    apply list_elem_of_lookup in Hm as [j Hj].
    apply lookup_take_Some in Hj as [Hj Hlt].
    pose proof (wf_range g Hwf j m _ Hj Hin).
    rewrite (wf_id g Hwf j m Hj) in Hne. lia. }
  rewrite Hnone. simpl.
  etransitivity; [apply length_filter|]. rewrite length_drop. lia.
Qed.

(** X3.  In a graph built by returning constructor calls, the depth of the
    record in slot [k] is at most the number of records created after it,
    and [maxDepth + 1], the number of buckets of [groupNodesByDepth], is at
    most the number of records of a graph that has any. *)
Theorem depth_at_most_later_records
    (cs : list call) (g : Graph) (ns : list Node) (k : nat) (ni : nodeInfo) :
  run cs NewGraph = Returned g ns →
  g_nodes g !! k = Some ni →
  0 ≤ depth ni ≤ len (g_nodes g) - 1 - Z.of_nat k ∧
  g_maxDepth g + 1 ≤ len (g_nodes g).
Proof.
  intros Hrun Hk. destruct (run_invariant cs g ns Hrun) as (Hwf & _ & _).
  assert (Hall : ∀ j nj, g_nodes g !! j = Some nj →
                         0 ≤ depth nj ≤ len (g_nodes g) - 1 - Z.of_nat j).
  { intros j nj Hj. rewrite (wf_count g Hwf j nj Hj).
    pose proof (lookup_lt_Some _ _ _ Hj).
    pose proof (consumerRecords_after g j Hwf ltac:(done)).
    unfold len. lia. }
  split; [by apply Hall|].
  rewrite (wf_maxDepth g Hwf).
  destruct (maxOf_attained 0 (depth <$> g_nodes g)) as [->|Hin].
  - apply lookup_lt_Some in Hk. unfold len. lia.
  - apply list_elem_of_fmap in Hin as (nj & -> & Hnj).
    apply list_elem_of_lookup in Hnj as [j Hj].
    pose proof (Hall j nj Hj). lia.
Qed.

Lemma exec_without_operands (c : call) (g : Graph) :
  operandIds c = [] →
  exec c g =
  Returned
    {| g_maxId := g_maxId g + 1;
       g_maxDepth := g_maxDepth g;
       g_nodes := g_nodes g ++
                  [{| node := builtNode c g; depth := 0;
                      descendants := [g_maxId g] |}] |}
    (builtNode c g).
Proof.
  intros Hops.
  destruct c as [value rg|value|f operands|value|value]; simpl;
    try (unfold NewScalar, NewVariable, NewWrap, NewWrapNoGrad, newId,
           appendNode; simpl; rewrite Z.add_simpl_r; done).
  simpl in Hops. apply fmap_nil_inv in Hops as ->.
  unfold NewOperator, newId, sumDescendants, appendNode, newOperator. simpl.
  by rewrite Z.add_simpl_r.
Qed.


(** X5.  After [NewOperator] has panicked on a graph built by returning
    calls, the identity it drew is lost: the node that the next leaf
    constructor returns carries the identity one beyond the slot it is
    stored in, and [NewOperator] panics when handed that node as an
    operand. *)
Theorem panic_shifts_later_identities
    (cs : list call) (g : Graph) (ns : list Node)
    (f : Function) (operands : list Node) (c : call) :
  run cs NewGraph = Returned g ns →
  Exists (λ o, len (g_nodes g) ≤ Id o) operands →
  operandIds c = [] →
  ∃ g1 g2 n ni,
    NewOperator f operands g = Panicked g1 ∧
    exec c g1 = Returned g2 n ∧
    g_nodes g2 !! length (g_nodes g) = Some ni ∧
    node ni = n ∧
    Id n = len (g_nodes g) + 1 ∧
    (∀ f', ∃ g3, NewOperator f' [n] g2 = Panicked g3).
Proof.
  intros Hrun Hex Hc. destruct (run_invariant cs g ns Hrun) as (Hwf & _ & _).
  pose proof (wf_maxId g Hwf) as Hmax.
  eexists (afterPanic g), _, _, _. split.
  { apply NewOperator_panics. eapply Exists_impl; [exact Hex|].
    intros o Ho. unfold inArena. simpl in Ho. lia. }
  split; [by apply exec_without_operands|]. split.
  { simpl. by rewrite lookup_app_r, Nat.sub_diag by lia. }
  split; [done|]. split; [rewrite Id_builtNode; simpl; lia|].
  intros f'. eexists. apply NewOperator_panics. apply Exists_cons_hd.
  rewrite Id_builtNode. unfold inArena, len. simpl.
  rewrite length_app. simpl. unfold len in Hmax. lia.
Qed.

(** X6.  One returning call on a graph built by returning calls raises
    [maxDepth] by at most one and the depth of each record by at most
    one. *)
Theorem call_raises_depths_by_at_most_one
    (cs : list call) (g g' : Graph) (ns : list Node) (c : call) (n : Node) :
  run cs NewGraph = Returned g ns →
  exec c g = Returned g' n →
  g_maxDepth g ≤ g_maxDepth g' ≤ g_maxDepth g + 1 ∧
  (∀ k ni, g_nodes g !! k = Some ni →
           ∃ ni', g_nodes g' !! k = Some ni' ∧
                  depth ni ≤ depth ni' ≤ depth ni + 1).
Proof.
  intros Hrun Hexec. destruct (run_invariant cs g ns Hrun) as (Hwf & _ & _).
  split.
  - apply exec_Returned_inv in Hexec as (_ & -> & _);
      [|by apply wf_descendantsInArena].
    simpl. split; [apply maxOf_ge_init|].
    destruct (maxOf_attained (g_maxDepth g)
                ((λ d, depthAt g d + 1) <$> touched c g)) as [->|Hin];
      [lia|].
    apply list_elem_of_fmap in Hin as (d & -> & _).
    unfold depthAt. destruct (index (g_nodes g) d) as [ni|] eqn:Hd; simpl.
    + apply index_Some in Hd as [_ Hd].
      assert (ni ∈ g_nodes g) as Hni by (apply list_elem_of_lookup; eauto).
      pose proof (wf_depth_bounds g Hwf ni Hni). lia.
    + pose proof (maxOf_ge_init 0 (depth <$> g_nodes g)).
      rewrite <- (wf_maxDepth g Hwf) in *. lia.
  - intros k ni Hk.
    destruct (exec_frame c g g' n k ni Hwf Hexec Hk) as (ni' & ? & _ & _ & ?).
    by exists ni'.
Qed.

Lemma bump_ext (U1 U2 : list Z) (ns : list nodeInfo) :
  (∀ d, d ∈ U1 ↔ d ∈ U2) → bump U1 ns = bump U2 ns.
Proof.
  intros HU. apply list_eq. intros k. rewrite !bump_lookup.
  destruct (ns !! k); simpl; [|done]. f_equal. unfold bumped.
  by apply decide_ext.
Qed.

Lemma maxOf_ext (m : Z) (l1 l2 : list Z) :
  (∀ x, x ∈ l1 ↔ x ∈ l2) → maxOf m l1 = maxOf m l2.
Proof.
  intros Hl. apply maxOf_unique.
  - apply maxOf_ge_init.
  - intros x Hx. apply maxOf_ge_elem. by apply Hl.
  - destruct (maxOf_attained m l2) as [->|Hin]; [by left|].
    right. by apply Hl.
Qed.

(** X7.  On a graph built by returning constructor calls, what
    [NewOperator] does to the depths depends on the set of its operands'
    identities only: two operand lists with the same identities, in any
    order and with any repetitions, give the same depths to all records,
    the same [maxDepth], the same new identity and new [descendants] with
    the same members. *)
Theorem NewOperator_depths_depend_on_operand_identities
    (cs : list call) (g : Graph) (ns : list Node)
    (f1 f2 : Function) (operands1 operands2 : list Node) :
  run cs NewGraph = Returned g ns →
  Forall (λ o, inArena g (Id o)) operands1 →
  (∀ i, i ∈ Id <$> operands1 ↔ i ∈ Id <$> operands2) →
  ∃ g1 op1 g2 op2,
    NewOperator f1 operands1 g = Returned g1 op1 ∧
    NewOperator f2 operands2 g = Returned g2 op2 ∧
    depth <$> g_nodes g1 = depth <$> g_nodes g2 ∧
    g_maxDepth g1 = g_maxDepth g2 ∧
    o_id op1 = o_id op2 ∧
    (∀ d, d ∈ descendantsAt g1 (o_id op1) ↔ d ∈ descendantsAt g2 (o_id op2)).
Proof.
  intros Hrun Hops1 Hsame.
  destruct (run_invariant cs g ns Hrun) as (Hwf & _ & _).
  pose proof (wf_maxId g Hwf) as Hmax.
  assert (Hops2 : Forall (λ o, inArena g (Id o)) operands2).
  { rewrite Forall_forall in *. intros o Ho.
    assert (Id o ∈ Id <$> operands1) as Hin.
    { apply Hsame, list_elem_of_fmap. by exists o. }
    apply list_elem_of_fmap in Hin as (o' & -> & Ho'). by apply Hops1. }
  assert (HU : ∀ d, d ∈ unionDescendants g operands1 ↔
                    d ∈ unionDescendants g operands2).
  { intros d. rewrite !elem_of_unionDescendants. split.
    - intros (o & Ho & Hd).
      assert (Id o ∈ Id <$> operands2) as Hin.
      { apply Hsame, list_elem_of_fmap. by exists o. }
      apply list_elem_of_fmap in Hin as (o' & Heq & Ho').
      exists o'. by rewrite <- Heq.
    - intros (o & Ho & Hd).
      assert (Id o ∈ Id <$> operands1) as Hin.
      { apply Hsame, list_elem_of_fmap. by exists o. }
      apply list_elem_of_fmap in Hin as (o' & Heq & Ho').
      exists o'. by rewrite <- Heq. }
  destruct (NewOperator_returns f1 operands1 g
              (wf_descendantsInArena g Hwf) Hops1) as (Hret1 & _ & _).
  destruct (NewOperator_returns f2 operands2 g
              (wf_descendantsInArena g Hwf) Hops2) as (Hret2 & _ & _).
  eexists _, _, _, _. split; [exact Hret1|]. split; [exact Hret2|].
  split; [|split; [|split; [done|]]].
  - simpl. by rewrite !fmap_app, (bump_ext _ _ _ HU).
  - simpl. apply maxOf_ext. intros x. rewrite !list_elem_of_fmap.
    split; intros (d & -> & Hd); exists d; (split; [done|]); by apply HU.
  - intros d. simpl. unfold descendantsAt, index.
    rewrite !decide_True by (rewrite Hmax; unfold len; lia). simpl.
    rewrite Hmax. unfold len. rewrite Nat2Z.id.
    rewrite !lookup_app_r by (rewrite bump_length; lia).
    rewrite !bump_length, Nat.sub_diag. simpl.
    rewrite !elem_of_app. by rewrite HU.
Qed.



Lemma operand_depth_order (cs : list call) (g : Graph) (k : nat) (c : call)
    (a : Z) :
  wf g → traced cs g → cs !! k = Some c → a ∈ operandIds c →
  ∃ no na, g_nodes g !! k = Some no ∧ index (g_nodes g) a = Some na ∧
           depth no < depth na.
Proof.
  intros Hwf Htr Hc Ha.
  pose proof (tr_operands cs g Htr k c a Hc Ha) as Hrange.
  pose proof (lookup_lt_Some _ _ _ Hc) as Hk.
  rewrite (tr_length cs g Htr) in Hk.
  destruct (lookup_lt_is_Some_2 (g_nodes g) k Hk) as [no Hno].
  destruct (lookup_lt_is_Some_2 (g_nodes g) (Z.to_nat a)) as [na Hna]; [lia|].
  exists no, na. split; [done|].
  split; [apply index_Some; split; [lia | done]|].
  apply (wf_order g Hwf k no (Z.to_nat a) na Hno Hna); [|lia].
  apply (tr_descendants cs g Htr k c no Hc Hno). right.
  exists a. split; [done|].
  apply elem_of_descendantsAt. exists (Z.to_nat a), na.
  split; [lia|]. split; [done|].
  exact (wf_self g Hwf _ na Hna).
Qed.

(** X9.  In the buckets that [groupNodesByDepth] returns for a graph built
    by returning constructor calls, the node of every operator is in a
    bucket that comes strictly before the bucket of each of its operands:
    taking the buckets in order visits an operator before its operands. *)
Theorem operator_bucket_precedes_operand_bucket
    (cs later : list call) (f : Function) (operands : list Node)
    (g : Graph) (ns : list Node) (a : Node) :
  run (cs ++ CallNewOperator f operands :: later) NewGraph = Returned g ns →
  a ∈ operands →
  ∃ out no na i j bo ba,
    groupNodesByDepth g = Some out ∧
    g_nodes g !! length cs = Some no ∧
    index (g_nodes g) (Id a) = Some na ∧
    out !! i = Some bo ∧ node no ∈ bo ∧
    out !! j = Some ba ∧ node na ∈ ba ∧
    (i < j)%nat.
Proof.
  intros Hrun Ha.
  destruct (run_invariant _ g ns Hrun) as (Hwf & Htr & _).
  assert (Hc : (cs ++ CallNewOperator f operands :: later) !! length cs =
               Some (CallNewOperator f operands)).
  { rewrite lookup_app_r by lia. by rewrite Nat.sub_diag. }
  assert (HaId : Id a ∈ operandIds (CallNewOperator f operands)).
  { simpl. apply list_elem_of_fmap. by exists a. }
  destruct (operand_depth_order _ g _ _ _ Hwf Htr Hc HaId)
    as (no & na & Hno & Hna & Hlt).
  destruct (groupNodesByDepth_spec g Hwf) as (out & Hout & Hlen & Hd & _).
  assert (Hino : no ∈ g_nodes g) by (apply list_elem_of_lookup; eauto).
  assert (Hina : na ∈ g_nodes g).
  { apply index_Some in Hna as [_ Hna]. apply list_elem_of_lookup; eauto. }
  pose proof (wf_depth_bounds g Hwf no Hino) as Hbo.
  pose proof (wf_depth_bounds g Hwf na Hina) as Hba.
  unfold len in Hlen.
  exists out, no, na, (Z.to_nat (depth no)), (Z.to_nat (depth na)).
  eexists _, _. split; [done|]. split; [done|]. split; [done|].
  split; [apply Hd; lia|]. split.
  { apply list_elem_of_fmap. exists no. split; [done|].
    apply list_elem_of_filter. split; [lia | done]. }
  split; [apply Hd; lia|]. split; [|lia].
  apply list_elem_of_fmap. exists na. split; [done|].
  apply list_elem_of_filter. split; [lia | done].
Qed.

End Graph.

(** * A worked graph

    The diamond, built by four calls on integers standing for matrices,
    kernels and wrapped values: [a] and [b] are leaves, [c] applies kernel
    10 to [a] and [b], and [d] applies kernel 11 to [a] and [c]. *)

Definition ex_NewScalar (x : Z) : Z := x.
Definition ex_Forward (f : Z) : Z := 2 * f.
Definition ex_RequiresGrad (value : Z) (wrapGrad : bool) : bool := wrapGrad.

Definition ex_a : @Node Z Z Z :=
  NVariable {| v_id := 0; v_value := 2; v_grad := None;
               v_hasGrad := false; v_requiresGrad := true |}.

Definition ex_b : @Node Z Z Z :=
  NVariable {| v_id := 1; v_value := 3; v_grad := None;
               v_hasGrad := false; v_requiresGrad := false |}.

Definition ex_c : @Node Z Z Z :=
  NOperator {| o_id := 2; o_function := 10; o_value := 20; o_grad := None;
               o_hasGrad := false; o_requiresGrad := true |}.

Definition ex_d : @Node Z Z Z :=
  NOperator {| o_id := 3; o_function := 11; o_value := 22; o_grad := None;
               o_hasGrad := false; o_requiresGrad := true |}.

(** A node of some other graph, with an identity this arena never
    issued. *)
Definition ex_stray : @Node Z Z Z :=
  NWrapper {| w_GradValue := 5; w_id := 7; w_wrapGrad := true |}.

Definition ex_leaves : list (@call Z Z Z Z) :=
  [CallNewVariable 2 true; CallNewScalar 3].

Definition ex_operators : list (@call Z Z Z Z) :=
  [CallNewOperator 10 [ex_a; ex_b]; CallNewOperator 11 [ex_a; ex_c]].

Definition ex_calls : list (@call Z Z Z Z) := ex_leaves ++ ex_operators.

Definition ex_run (cs : list (@call Z Z Z Z)) : outcome (list Node) :=
  run ex_NewScalar ex_Forward ex_RequiresGrad cs NewGraph.

Definition ex_graph_of (cs : list (@call Z Z Z Z)) : Graph :=
  match ex_run cs with Returned g _ => g | Panicked g => g end.

Definition ex_nodes_of (cs : list (@call Z Z Z Z)) : list Node :=
  match ex_run cs with Returned _ ns => ns | Panicked _ => [] end.

Definition ex_graph : Graph := Eval vm_compute in ex_graph_of ex_calls.
Definition ex_nodes : list Node := Eval vm_compute in ex_nodes_of ex_calls.
Definition ex_graph2 : Graph := Eval vm_compute in ex_graph_of ex_leaves.
Definition ex_nodes2 : list Node := Eval vm_compute in ex_nodes_of ex_leaves.

Lemma ex_run_calls : ex_run ex_calls = Returned ex_graph ex_nodes.
Proof. vm_compute. reflexivity. Qed.

Lemma ex_run_leaves : ex_run ex_leaves = Returned ex_graph2 ex_nodes2.
Proof. vm_compute. reflexivity. Qed.

Lemma identities_dense_in_creation_order_witness :
  Id <$> ex_nodes = [0; 1; 2; 3] ∧ node <$> g_nodes ex_graph = ex_nodes ∧
  g_maxId ex_graph = 4.
Proof.
  destruct (identities_dense_in_creation_order
              ex_NewScalar ex_Forward ex_RequiresGrad
              ex_calls ex_graph ex_nodes ex_run_calls)
    as (Hids & Hnodes & Hmax & _).
  split; [exact Hids|]. split; [exact Hnodes | exact Hmax].
Defined.

Lemma descendants_closed_sets_witness :
  NoDup [0; 1; 2; 3] ∧ ∀ d, d ∈ [0; 1; 2; 3] → 0 ≤ d ≤ 3.
Proof.
  destruct (descendants_closed_sets
              ex_NewScalar ex_Forward ex_RequiresGrad
              ex_calls ex_graph ex_nodes 3
              {| node := ex_d; depth := 0; descendants := [0; 1; 2; 3] |}
              ex_run_calls eq_refl)
    as (_ & Hnd & Hrange & _).
  split; [exact Hnd | exact Hrange].
Defined.

Lemma NewOperator_panics_outside_returns_inside_witness :
  (∃ g', NewOperator ex_Forward ex_RequiresGrad 12 [ex_a; ex_stray] ex_graph =
         Panicked g' ∧
         g_nodes g' = g_nodes ex_graph ∧ g_maxDepth g' = g_maxDepth ex_graph ∧
         g_maxId g' = g_maxId ex_graph + 1) ∧
  (∃ g' op, NewOperator ex_Forward ex_RequiresGrad 12 [ex_c; ex_d] ex_graph =
            Returned g' op).
Proof.
  split.
  - apply (NewOperator_panics_outside_returns_inside
             ex_NewScalar ex_Forward ex_RequiresGrad
             ex_calls ex_graph ex_nodes 12 [ex_a; ex_stray] ex_run_calls).
    apply Exists_cons_tl, Exists_cons_hd. vm_compute. discriminate.
  - apply (NewOperator_panics_outside_returns_inside
             ex_NewScalar ex_Forward ex_RequiresGrad
             ex_calls ex_graph ex_nodes 12 [ex_c; ex_d] ex_run_calls).
    repeat constructor; vm_compute; discriminate.
Defined.

Lemma NewOperator_postcondition_witness :
  ∃ U g' op,
    NewOperator ex_Forward ex_RequiresGrad 12 [ex_c; ex_d] ex_graph =
      Returned g' op ∧
    NoDup U ∧
    (∀ x, x ∈ U ↔ ∃ o, o ∈ [ex_c; ex_d] ∧ x ∈ descendantsAt ex_graph (Id o)) ∧
    (∀ i, inArena ex_graph i →
          depthAt g' i =
          depthAt ex_graph i + (if decide (i ∈ U) then 1 else 0)) ∧
    g_maxDepth g' = maxOf (g_maxDepth ex_graph) (depthAt g' <$> U) ∧
    g_nodes g' !! length (g_nodes ex_graph) =
      Some {| node := NOperator op; depth := 0;
              descendants := U ++ [o_id op] |} ∧
    length (g_nodes g') = S (length (g_nodes ex_graph)) ∧
    o_id op = len (g_nodes ex_graph) ∧
    o_function op = 12 ∧
    o_value op = ex_Forward 12 ∧
    o_requiresGrad op =
      existsb (RequiresGrad ex_RequiresGrad) [ex_c; ex_d].
Proof.
  apply (NewOperator_postcondition
           ex_NewScalar ex_Forward ex_RequiresGrad
           ex_calls ex_graph ex_nodes 12 [ex_c; ex_d] ex_run_calls).
  repeat constructor; vm_compute; discriminate.
Defined.

Lemma operator_depth_below_operand_depth_witness :
  ∃ no na op,
    index (g_nodes ex_graph) 2 = Some no ∧
    node no = NOperator op ∧ o_function op = 10 ∧
    index (g_nodes ex_graph) (Id ex_a) = Some na ∧
    depth no < depth na.
Proof.
  apply (operator_depth_below_operand_depth
           ex_NewScalar ex_Forward ex_RequiresGrad
           ex_leaves [CallNewOperator 11 [ex_a; ex_c]] 10 [ex_a; ex_b]
           ex_graph ex_nodes ex_a ex_run_calls).
  apply list_elem_of_here.
Defined.

Lemma records_change_by_growing_depth_only_witness :
  ∃ ni', g_nodes ex_graph !! 0%nat = Some ni' ∧
         node ni' = ex_a ∧ Id (node ni') = 0 ∧
         descendants ni' = [0] ∧ 0 ≤ depth ni'.
Proof.
  exact (proj1 (records_change_by_growing_depth_only
                  ex_NewScalar ex_Forward ex_RequiresGrad
                  ex_leaves ex_operators ex_graph2 ex_graph
                  ex_nodes2 ex_nodes 0
                  {| node := ex_a; depth := 0; descendants := [0] |}
                  ex_run_leaves ex_run_calls eq_refl)).
Defined.

Lemma groupNodesByDepth_partitions_by_depth_witness :
  g_maxDepth ex_graph = 2 ∧
  ∃ out, groupNodesByDepth ex_graph = Some out ∧ len out = 3 ∧
         NoDup (concat out).
Proof.
  destruct (groupNodesByDepth_partitions_by_depth
              ex_NewScalar ex_Forward ex_RequiresGrad
              ex_calls ex_graph ex_nodes ex_run_calls)
    as (Hmax & _ & out & Hout & Hlen & _ & _ & Hnd).
  split; [exact Hmax|]. exists out. split; [exact Hout|].
  split; [exact Hlen | exact Hnd].
Defined.

Lemma depth_counts_consuming_operators_witness :
  ∃ l : list Z,
    NoDup l ∧
    (∀ o, o ∈ l ↔ consumes ex_calls o 0) ∧
    (∀ o, o ∈ l → ∃ f operands,
                    index ex_calls o = Some (CallNewOperator f operands)) ∧
    2 = len l.
Proof.
  exact (proj1 (depth_counts_consuming_operators
                  ex_NewScalar ex_Forward ex_RequiresGrad)
           ex_calls ex_graph ex_nodes 0%nat
           {| node := ex_a; depth := 2; descendants := [0] |}
           ex_run_calls eq_refl).
Defined.

(** * A worked backward pass

    The chain [y = f(x)], [z = h(y)] over integers, with kernels that hand
    the gradient they receive to their one operand. *)

Definition ex_x : @Node Z Z Z :=
  NVariable {| v_id := 0; v_value := 5; v_grad := None;
               v_hasGrad := false; v_requiresGrad := true |}.

Definition ex_y : @Node Z Z Z :=
  NOperator {| o_id := 1; o_function := 20; o_value := 40; o_grad := None;
               o_hasGrad := false; o_requiresGrad := true |}.

Definition ex_z : @Node Z Z Z :=
  NOperator {| o_id := 2; o_function := 21; o_value := 42; o_grad := None;
               o_hasGrad := false; o_requiresGrad := true |}.

Definition ex_chain_calls : list (@call Z Z Z Z) :=
  [CallNewVariable 5 true; CallNewOperator 20 [ex_x];
   CallNewOperator 21 [ex_y]].

Definition ex_chain : Graph := Eval vm_compute in ex_graph_of ex_chain_calls.

Definition ex_chain_nodes : list Node :=
  Eval vm_compute in ex_nodes_of ex_chain_calls.

Definition ex_operandsOf (f : Z) : list (@Node Z Z Z) :=
  if decide (f = 20) then [ex_x] else [ex_y].

Definition ex_kernelBackward (f gy : Z) : list Z := [gy].

Definition ex_Backward (g : Graph) (out : Node) (seed : Z)
    (b : @buffers Z Z) : @buffers Z Z :=
  Backward Z.add ex_operandsOf ex_kernelBackward g out seed b.

Lemma ex_run_chain : ex_run ex_chain_calls = Returned ex_chain ex_chain_nodes.
Proof. vm_compute. reflexivity. Qed.

(** C5 as stated fails on the chain: two backward runs from [z], each
    seeded with 1 and with no clearing between them, leave the leaf [x]
    with 4, and one run seeded with 1 + 1 leaves it with 2.  The second
    run finds 1 still in the buffer of [y] and propagates it again. *)
Lemma Backward_twice_is_not_Backward_of_sum :
  gradOf ex_x
    (ex_Backward ex_chain ex_z 1 (ex_Backward ex_chain ex_z 1 noGradients)) =
    Some 4 ∧
  gradOf ex_x (ex_Backward ex_chain ex_z (1 + 1) noGradients) = Some 2 ∧
  gradOf ex_x
    (ex_Backward ex_chain ex_z 1 (ex_Backward ex_chain ex_z 1 noGradients)) ≠
  gradOf ex_x (ex_Backward ex_chain ex_z (1 + 1) noGradients).
Proof. repeat split; vm_compute; congruence. Qed.

Lemma Backward_additive_once_operators_cleared_witness :
  gradOf ex_x
    (ex_Backward ex_chain ex_z 1
       (clearOperators ex_chain (ex_Backward ex_chain ex_z 1 noGradients))) =
  gradOf ex_x (ex_Backward ex_chain ex_z (1 + 1) noGradients).
Proof.
  apply (Backward_additive_once_operators_cleared
           ex_NewScalar ex_Forward ex_RequiresGrad
           Z.add ex_operandsOf ex_kernelBackward
           Z.add_assoc Z.add_comm) with (cs := ex_chain_calls)
                                        (ns := ex_chain_nodes).
  - intros f gy. unfold ex_operandsOf. case_decide; reflexivity.
  - reflexivity.
  - exact ex_run_chain.
  - reflexivity.
  - apply list_elem_of_here.
  - reflexivity.
Defined.

(** * Package [utils]: substrings (pkg/utils/str.go)

    A Go string is a sequence of bytes, and [value[i:j]] slices it by byte
    offsets; it is modelled as a list of 8-bit characters. *)

Module Str.

(** Go's [s[:hi]] and [s[lo:]] on a string; [None] is the out-of-range
    panic. *)
Definition sliceTo (s : list ascii) (hi : Z) : option (list ascii) :=
  if decide (0 ≤ hi ≤ len s) then Some (take (Z.to_nat hi) s) else None.

Definition sliceFrom (s : list ascii) (lo : Z) : option (list ascii) :=
  if decide (0 ≤ lo ≤ len s) then Some (drop (Z.to_nat lo) s) else None.

(** [strings.Index] of the Go standard library: "the index of the first
    instance of substr in s, or -1 if substr is not present in s". *)
Fixpoint Index_from (s substr : list ascii) (i : Z) : Z :=
  if decide (substr `prefix_of` s) then i
  else match s with
       | [] => -1
       | _ :: s' => Index_from s' substr (i + 1)
       end.

Definition Index (s substr : list ascii) : Z := Index_from s substr 0.

(** [func Before(value string, a string) string] *)
Definition Before (value a : list ascii) : option (list ascii) :=
  let pos := Index value a in
  if decide (pos = -1) then Some []
  else sliceTo value pos.

(** [func After(value string, a string) string] *)
Definition After (value a : list ascii) : option (list ascii) :=
  let pos := Index value a in
  if decide (pos = -1) then Some []
  else
    let adjustedPos := pos + len a in
    if decide (adjustedPos >= len value) then Some []
    else sliceFrom value adjustedPos.

Definition space : ascii := ascii_of_nat 32.

(** [func BeforeSpace(value string) string] *)
Definition BeforeSpace (value : list ascii) : option (list ascii) :=
  Before value [space].

(** [func AfterSpace(value string) string] *)
Definition AfterSpace (value : list ascii) : option (list ascii) :=
  After value [space].


(** What [Index_from] finds: no instance at all, or the first one. *)
Lemma Index_from_spec (a : list ascii) (s : list ascii) :
  ∀ i,
    (Index_from s a i = -1 ∧
     ∀ k, (k ≤ length s)%nat → ¬ a `prefix_of` drop k s) ∨
    (∃ k, (k ≤ length s)%nat ∧ Index_from s a i = i + Z.of_nat k ∧
          a `prefix_of` drop k s ∧
          ∀ j, (j < k)%nat → ¬ a `prefix_of` drop j s).
Proof.
  induction s as [|c s IH]; intros i; simpl.
  - destruct (decide (a `prefix_of` [])) as [Hp|Hp].
    + right. exists 0%nat. repeat split; [lia | lia | done | lia].
    + left. split; [done|]. intros k Hk. by rewrite drop_nil.
  - destruct (decide (a `prefix_of` c :: s)) as [Hp|Hp].
    + right. exists 0%nat. repeat split; [lia | lia | done | lia].
    + destruct (IH (i + 1)) as [[Hnone Hall]|(k & Hk & Hfound & Hpk & Hmin)].
      * left. split; [done|]. intros [|k] Hk; [done|]. simpl.
        apply Hall. lia.
      * right. exists (S k). repeat split; [lia | lia | done |].
        intros [|j] Hj; [done|]. simpl. apply Hmin. lia.
Qed.

Lemma Index_spec (value a : list ascii) :
  (Index value a = -1 ∧
   ∀ k, (k ≤ length value)%nat → ¬ a `prefix_of` drop k value) ∨
  (∃ k, (k ≤ length value)%nat ∧ Index value a = Z.of_nat k ∧
        a `prefix_of` drop k value ∧
        ∀ j, (j < k)%nat → ¬ a `prefix_of` drop j value).
Proof.
  unfold Index. destruct (Index_from_spec a value 0) as [?|(k & ? & ? & ?)].
  - by left.
  - right. exists k. by rewrite Z.add_0_l in *.
Qed.

(** What [Before] and [After] return when [a] first occurs at offset
    [k]. *)
Lemma found_at (value a : list ascii) (k : nat) :
  (k ≤ length value)%nat → Index value a = Z.of_nat k →
  a `prefix_of` drop k value →
  Before value a = Some (take k value) ∧
  After value a = Some (drop (k + length a) value) ∧
  value = take k value ++ a ++ drop (k + length a) value.
Proof.
  intros Hk Hidx [rest Hrest].
  assert (Hval : value = take k value ++ a ++ rest)
    by (by rewrite <- Hrest, take_drop).
  assert (Hlen : (k + length a + length rest = length value)%nat).
  { pose proof (f_equal length Hval) as Hl.
    rewrite !length_app, length_take in Hl. lia. }
  assert (Hdrop : drop (k + length a) value = rest).
  { rewrite <- drop_drop, Hrest. by rewrite drop_app_length. }
  split; [|split; [|by rewrite Hdrop]].
  - unfold Before, sliceTo. rewrite Hidx. simpl.
    rewrite decide_False by lia. unfold len.
    rewrite decide_True by lia. by rewrite Nat2Z.id.
  - unfold After, sliceFrom. rewrite Hidx, Hdrop. simpl.
    rewrite decide_False by lia. unfold len.
    destruct (decide (Z.of_nat k + Z.of_nat (length a) >=
                      Z.of_nat (length value))) as [Hge|Hlt].
    + assert (length rest = 0)%nat as Hnil by lia.
      by apply nil_length_inv in Hnil as ->.
    + rewrite decide_True by lia. f_equal.
      by rewrite <- Nat2Z.inj_add, Nat2Z.id.
Qed.

Lemma not_found (value a : list ascii) :
  Index value a = -1 → Before value a = Some [] ∧ After value a = Some [].
Proof.
  intros Hidx. unfold Before, After. by rewrite Hidx, !decide_True.
Qed.


Lemma Index_absent (s a : list ascii) :
  (∀ k, (k ≤ length s)%nat → ¬ a `prefix_of` drop k s) → Index s a = -1.
Proof.
  intros Hall. destruct (Index_spec s a) as [[? _]|(k & Hk & _ & Hp & _)];
    [done|]. by destruct (Hall k Hk).
Qed.

(** X11.  For a separator [a] that is not empty, what [Before] returns
    contains no occurrence of [a]. *)
Theorem Before_holds_no_separator (value a b : list ascii) :
  a ≠ [] → Before value a = Some b → Index b a = -1.
Proof.
  intros Ha Hb. apply Index_absent. intros j Hj [rest Hrest].
  destruct (Index_spec value a) as [[Hidx _]|(k & Hk & Hidx & Hp & Hmin)].
  - destruct (not_found value a Hidx) as [Hb' _].
    assert (b = []) as -> by congruence.
    rewrite drop_nil in Hrest. symmetry in Hrest.
    by apply app_eq_nil in Hrest as [-> _].
  - destruct (found_at value a k Hk Hidx Hp) as (Hb' & _ & _).
    assert (b = take k value) as -> by congruence.
    rewrite length_take in Hj.
    destruct (decide (j < k)%nat) as [Hlt|Hge].
    + apply (Hmin j Hlt). exists (rest ++ drop k value).
      rewrite <- (take_drop k value) at 1.
      rewrite drop_app_le by (rewrite length_take; lia).
      by rewrite Hrest, <- app_assoc.
    + rewrite drop_ge in Hrest by (rewrite length_take; lia).
      symmetry in Hrest. by apply app_eq_nil in Hrest as [-> _].
Qed.

(** X12.  [Before] returns the empty string in two cases that its caller
    cannot tell apart: [a] does not occur in [value], or [value] starts
    with [a]. *)
Theorem Before_empty_iff_absent_or_leading (value a : list ascii) :
  Before value a = Some [] ↔ Index value a = -1 ∨ a `prefix_of` value.
Proof.
  destruct (Index_spec value a) as [[Hidx Hall]|(k & Hk & Hidx & Hp & Hmin)].
  - destruct (not_found value a Hidx) as [-> _]. split; [by left | done].
  - destruct (found_at value a k Hk Hidx Hp) as (-> & _ & _). split.
    + intros [= Htake]. right.
      destruct k as [|k]; [done|].
      destruct value as [|c value]; [simpl in Hk; lia | done].
    + intros [Hnone|Hlead]; [lia|].
      destruct k as [|k]; [done|]. by destruct (Hmin 0%nat ltac:(lia)).
Qed.

(** X13.  With the empty separator, [Before] returns the empty string and
    [After] returns [value] whole; on the empty [value] both return the
    empty string, whatever the separator. *)
Theorem Before_After_on_empty_strings (value a : list ascii) :
  Before value [] = Some [] ∧ After value [] = Some value ∧
  Before [] a = Some [] ∧ After [] a = Some [].
Proof.
  assert (Hidx : Index value [] = 0).
  { unfold Index.
    destruct value as [|c v]; unfold Index_from;
      (destruct (decide _) as [_|Hn]; [done | destruct Hn; apply prefix_nil]). }
  split; [|split].
  - unfold Before, sliceTo. rewrite Hidx. simpl.
    rewrite decide_True by (unfold len; lia). done.
  - unfold After, sliceFrom. rewrite Hidx. simpl. unfold len. simpl.
    case_decide as Hge.
    + assert (length value = 0)%nat as Hnil by lia.
      by apply nil_length_inv in Hnil as ->.
    + by rewrite decide_True by lia.
  - unfold Before, After, Index, sliceTo. simpl.
    destruct (decide (a `prefix_of` [])); simpl; [|done].
    split; [done|]. rewrite decide_True; [done|]. unfold len. simpl. lia.
Qed.

(** X14.  For a [value] that holds a space, [BeforeSpace] returns the part
    before the first space, which holds no space, and [AfterSpace] the part
    after it; for a [value] without a space both return the empty
    string. *)
Theorem BeforeSpace_AfterSpace_split_at_first_space (value : list ascii) :
  (space ∈ value →
   ∃ b af, BeforeSpace value = Some b ∧ AfterSpace value = Some af ∧
           value = b ++ [space] ++ af ∧ space ∉ b) ∧
  (space ∉ value →
   BeforeSpace value = Some [] ∧ AfterSpace value = Some []).
Proof.
  unfold BeforeSpace, AfterSpace.
  destruct (Index_spec value [space])
    as [[Hidx Hall]|(k & Hk & Hidx & Hp & Hmin)].
  - assert (Hnot : space ∉ value).
    { intros Hin. apply list_elem_of_lookup in Hin as [k Hk].
      apply (Hall k); [apply lookup_lt_Some in Hk; lia|].
      exists (drop (S k) value). simpl. by apply drop_S. }
    split; [done|]. intros _. by apply not_found.
  - destruct (found_at value [space] k Hk Hidx Hp) as (Hb & Haf & Hval).
    split.
    + intros _. eexists _, _. split; [exact Hb|]. split; [exact Haf|].
      split; [exact Hval|]. intros Hin.
      apply list_elem_of_lookup in Hin as [j Hj].
      apply lookup_take_Some in Hj as [Hj Hlt].
      apply (Hmin j Hlt). exists (drop (S j) value). simpl. by apply drop_S.
    + intros Hnot. exfalso. apply Hnot. rewrite Hval.
      apply elem_of_app. right. by left.
Qed.

End Str.

(** * Package [nn]: models and their parameters (pkg/ml/nn/model.go)

    [model.ForEachParam(callback)] calls [callback] on the parameters of
    the model one after the other; the parameters it visits are given as a
    list, in visiting order. *)

Module Model.

Section Serialization.

(** [*Param], [io.Writer], [io.Reader] and [error]. *)
Context {Param Writer Reader Err : Type}.

(** [mat.MarshalBinaryTo(param.Value(), w)]: the writer as the call leaves
    it, and the count and the error it returns. *)
Variable MarshalBinaryTo : Param → Writer → Writer * Z * option Err.

(** [mat.UnmarshalBinaryFrom(param.Value(), r)]: the parameter and the
    reader as the call leaves them, and the count and the error it
    returns. *)
Variable UnmarshalBinaryFrom :
  Param → Reader → Param * Reader * Z * option Err.

(** The callback of [Serialize] on the variables it shares with
    [Serialize]: the writer and the results [n] and [err].  Its
    [cnt, err := ...] declares an [err] of its own, so the result [err] is
    not assigned. *)
Definition serializeParam (st : Writer * Z * option Err) (param : Param)
  : Writer * Z * option Err :=
  let '(w, n, err) := st in
  let '(w, cnt, err') := MarshalBinaryTo param w in
  let n := n + cnt in
  match err' with
  | Some _ => (w, n, err)
  | None => (w, n, err)
  end.

(** [func Serialize(model Model, w io.Writer) (n int, err error)], with the
    writer as it is left. *)
Definition Serialize (params : list Param) (w : Writer)
  : Writer * Z * option Err :=
  foldl serializeParam (w, 0, None) params.

(** The callback of [Deserialize], on the parameters read so far, the
    reader and the results [n] and [err]. *)
Definition deserializeParam (st : list Param * Reader * Z * option Err)
    (param : Param) : list Param * Reader * Z * option Err :=
  let '(done, r, n, err) := st in
  let '(param, r, cnt, err') := UnmarshalBinaryFrom param r in
  let n := n + cnt in
  match err' with
  | Some _ => (done ++ [param], r, n, err)
  | None => (done ++ [param], r, n, err)
  end.

(** [func Deserialize(model Model, r io.Reader) (n int, err error)], with
    the parameters and the reader as they are left. *)
Definition Deserialize (params : list Param) (r : Reader)
  : list Param * Reader * Z * option Err :=
  foldl deserializeParam ([], r, 0, None) params.

Lemma serialize_from (params : list Param) :
  ∀ w n, foldl serializeParam (w, n, None) params =
         ((Serialize params w).1.1, n + (Serialize params w).1.2, None).
Proof.
  unfold Serialize. induction params as [|p ps IH]; intros w n; simpl.
  - f_equal. f_equal. lia.
  - destruct (MarshalBinaryTo p w) as [[w1 cnt] [e|]] eqn:Hm; simpl;
      rewrite (IH w1 (n + cnt)), (IH w1 (0 + cnt)); simpl;
      f_equal; f_equal; lia.
Qed.

(** X15.  [Serialize] returns a nil error whatever [MarshalBinaryTo]
    reports, and a failed parameter does not stop it: serializing the
    parameters [ps1 ++ ps2] is serializing [ps1] and then [ps2] on the
    writer as [ps1] left it, and the count is the sum of the two counts. *)
Theorem Serialize_reports_no_error (ps1 ps2 : list Param) (w : Writer) :
  (Serialize ps1 w).2 = None ∧
  Serialize (ps1 ++ ps2) w =
  ((Serialize ps2 (Serialize ps1 w).1.1).1.1,
   (Serialize ps1 w).1.2 + (Serialize ps2 (Serialize ps1 w).1.1).1.2,
   None).
Proof.
  pose proof (serialize_from ps1 w 0) as H1.
  change (foldl serializeParam (w, 0, None) ps1) with (Serialize ps1 w) in H1.
  split; [by rewrite H1|].
  change (Serialize (ps1 ++ ps2) w)
    with (foldl serializeParam (w, 0, None) (ps1 ++ ps2)).
  rewrite foldl_app.
  change (foldl serializeParam (w, 0, None) ps1) with (Serialize ps1 w).
  rewrite H1 at 1. by rewrite serialize_from.
Qed.

Lemma deserialize_from (params : list Param) :
  ∀ done r n,
    foldl deserializeParam (done, r, n, None) params =
    (done ++ (Deserialize params r).1.1.1, (Deserialize params r).1.1.2,
     n + (Deserialize params r).1.2, None).
Proof.
  unfold Deserialize. induction params as [|p ps IH]; intros done r n; simpl.
  - rewrite app_nil_r. f_equal. f_equal. lia.
  - destruct (UnmarshalBinaryFrom p r) as [[[p1 r1] cnt] [e|]] eqn:Hm; simpl;
      rewrite (IH (done ++ [p1]) r1 (n + cnt)), (IH [p1] r1 (0 + cnt)); simpl;
      rewrite <- app_assoc; f_equal; f_equal; lia.
Qed.

(** X16.  [Deserialize] returns a nil error whatever [UnmarshalBinaryFrom]
    reports, reads into every parameter even after one has failed, and
    counts what all of them read. *)
Theorem Deserialize_reports_no_error (ps1 ps2 : list Param) (r : Reader) :
  (Deserialize ps1 r).2 = None ∧
  length (Deserialize ps1 r).1.1.1 = length ps1 ∧
  Deserialize (ps1 ++ ps2) r =
  ((Deserialize ps1 r).1.1.1 ++
     (Deserialize ps2 (Deserialize ps1 r).1.1.2).1.1.1,
   (Deserialize ps2 (Deserialize ps1 r).1.1.2).1.1.2,
   (Deserialize ps1 r).1.2 + (Deserialize ps2 (Deserialize ps1 r).1.1.2).1.2,
   None).
Proof.
  assert (Heq : ∀ ps, Deserialize ps r =
                      ((Deserialize ps r).1.1.1, (Deserialize ps r).1.1.2,
                       (Deserialize ps r).1.2, None)).
  { intros ps. exact (deserialize_from ps [] r 0). }
  assert (Happ : ∀ ps qs,
             Deserialize (ps ++ qs) r =
             ((Deserialize ps r).1.1.1 ++
                (Deserialize qs (Deserialize ps r).1.1.2).1.1.1,
              (Deserialize qs (Deserialize ps r).1.1.2).1.1.2,
              (Deserialize ps r).1.2 +
                (Deserialize qs (Deserialize ps r).1.1.2).1.2,
              None)).
  { intros ps qs.
    change (Deserialize (ps ++ qs) r)
      with (foldl deserializeParam ([], r, 0, None) (ps ++ qs)).
    rewrite foldl_app.
    change (foldl deserializeParam ([], r, 0, None) ps)
      with (Deserialize ps r).
    rewrite (Heq ps) at 1. by rewrite deserialize_from. }
  split; [by rewrite (Heq ps1)|]. split; [|apply Happ].
  induction ps1 as [|p ps IH] using rev_ind; [done|].
  rewrite Happ. simpl. rewrite !length_app, IH. simpl. f_equal.
  unfold Deserialize. simpl.
  by destruct (UnmarshalBinaryFrom p _) as [[[p1 r1] cnt] [e|]].
Qed.

End Serialization.

Section ParamsVector.

(** The matrix of a parameter ([param.Value()], a [mat.Matrix]), Go's
    [float64], and what these functions use of package [mat]: [Data()],
    [Size()], [SetData(data)] as the matrix it leaves, and
    [mat.NewVecDense(data)]. *)
Context {Mat F : Type}.
Variable Data : Mat → list F.
Variable Size : Mat → Z.
Variable SetData : Mat → list F → Mat.
Variable NewVecDense : list F → Mat.

(** Go's [data[lo:hi]] within the length of [data]; [None] is the
    out-of-range panic. *)
Definition slice (data : list F) (lo hi : Z) : option (list F) :=
  if decide (0 ≤ lo ≤ hi ∧ hi ≤ len data)
  then Some (take (Z.to_nat (hi - lo)) (drop (Z.to_nat lo) data))
  else None.

(** [func DumpParamsVector(model Model) *mat.Dense] *)
Definition DumpParamsVector (params : list Mat) : Mat :=
  let data := foldl (λ data param, data ++ Data param) [] params in
  NewVecDense data.

(** The callback of [LoadParamsVector], on the parameters loaded so far and
    [offset]. *)
Definition loadParam (data : list F) (st : option (list Mat * Z))
    (param : Mat) : option (list Mat * Z) :=
  match st with
  | None => None
  | Some (done, offset) =>
      let size := Size param in
      match slice data offset (offset + size) with
      | None => None
      | Some segment =>
          Some (done ++ [SetData param segment], offset + size)
      end
  end.

(** [func LoadParamsVector(model Model, vector *mat.Dense)], returning the
    parameters as it leaves them. *)
Definition LoadParamsVector (params : list Mat) (vector : Mat)
  : option (list Mat) :=
  let data := Data vector in
  fst <$> foldl (loadParam data) (Some ([], 0)) params.

(** What [SetData] and [NewVecDense] are relied on for. *)
Hypothesis Data_SetData :
  ∀ m data, len data = Size m → Data (SetData m data) = data.
Hypothesis Data_NewVecDense : ∀ data, Data (NewVecDense data) = data.

Lemma dump_from (params : list Mat) :
  ∀ data, foldl (λ data param, data ++ Data param) data params =
          data ++ concat (Data <$> params).
Proof.
  induction params as [|p ps IH]; intros data; simpl.
  - by rewrite app_nil_r.
  - by rewrite IH, app_assoc.
Qed.

Lemma load_from (params : list Mat) :
  ∀ (segments : list (list F)) (before rest : list F) (done : list Mat),
    Forall2 (λ p seg, Size p = len seg) params segments →
    ∃ loaded,
      foldl (loadParam (before ++ concat segments ++ rest))
            (Some (done, len before)) params =
      Some (done ++ loaded, len before + len (concat segments)) ∧
      Data <$> loaded = segments.
Proof.
  induction params as [|p ps IH]; intros segments before rest done Hsizes.
  - apply Forall2_nil_inv_l in Hsizes as ->. exists []. simpl.
    rewrite app_nil_r. split; [|done]. f_equal. f_equal. unfold len. simpl.
    lia.
  - apply Forall2_cons_inv_l in Hsizes as (seg & segs & Hseg & Hsegs & ->).
    simpl. unfold slice, len in *.
    rewrite decide_True by (rewrite !length_app; lia).
    rewrite Nat2Z.id, drop_app_length.
    replace (Z.to_nat (Z.of_nat (length before) + Size p -
                       Z.of_nat (length before))) with (length seg) by lia.
    rewrite <- app_assoc, take_app_length.
    destruct (IH segs (before ++ seg) rest (done ++ [SetData p seg]) Hsegs)
      as (loaded & Hload & Hdata).
    unfold len in Hload. rewrite length_app, <- !app_assoc in Hload.
    replace (Z.of_nat (length before) + Size p)
      with (Z.of_nat (length before + length seg)) by lia.
    rewrite Hload. exists (SetData p seg :: loaded). split.
    + simpl. f_equal. f_equal. rewrite length_app. lia.
    + rewrite fmap_cons, Hdata. f_equal. apply Data_SetData. unfold len. lia.
Qed.

(** X17.  On a vector that holds, one after the other, a segment of the
    size of each parameter and then anything, [LoadParamsVector] does not
    panic: every parameter is left with its segment as data, in order, and
    what follows the last segment is ignored. *)
Theorem LoadParamsVector_gives_each_param_its_segment
    (params : list Mat) (segments : list (list F)) (rest : list F) :
  Forall2 (λ p seg, Size p = len seg) params segments →
  ∃ loaded,
    LoadParamsVector params (NewVecDense (concat segments ++ rest)) =
      Some loaded ∧
    Data <$> loaded = segments.
Proof.
  intros Hsizes. unfold LoadParamsVector. rewrite Data_NewVecDense.
  destruct (load_from params segments [] rest [] Hsizes)
    as (loaded & Hload & Hdata).
  change (len (@nil F)) with 0 in Hload. simpl in Hload.
  rewrite Hload. by exists loaded.
Qed.

(** X18.  When the size of every parameter is the length of its data,
    loading what [DumpParamsVector] dumped leaves every parameter with the
    data it had. *)
Theorem LoadParamsVector_of_DumpParamsVector (params : list Mat) :
  Forall (λ p, Size p = len (Data p)) params →
  ∃ loaded,
    LoadParamsVector params (DumpParamsVector params) = Some loaded ∧
    Data <$> loaded = Data <$> params.
Proof.
  intros Hsizes. unfold LoadParamsVector, DumpParamsVector.
  rewrite Data_NewVecDense, dump_from. simpl.
  destruct (load_from params (Data <$> params) [] [] [])
    as (loaded & Hload & Hdata).
  { apply Forall2_fmap_r, Forall_Forall2_diag. exact Hsizes. }
  change (len (@nil F)) with 0 in Hload. simpl in Hload.
  rewrite app_nil_r in Hload. rewrite Hload. by exists loaded.
Qed.

End ParamsVector.

End Model.

(** * Package [nn]: the affine transformation

    [Affine] and [Linear] of package [nn] build on the operators [g.Add]
    and [g.Mul] of the graph, which are declared outside graph.go; they are
    taken as parameters, as calls that act on the graph and may panic. *)

Module Affine.

Section Affine.

Context {Matrix Function GradValue : Type}.

Local Abbreviation Graph := (@Graph Matrix Function GradValue).
Local Abbreviation outcome := (@outcome Matrix Function GradValue).

(** A value of the interface type [ag.Node]: a node, or [nil]. *)
Definition nodeValue : Type := option (@Node Matrix Function GradValue).

Variable Add : nodeValue → nodeValue → Graph → outcome nodeValue.
Variable Mul : nodeValue → nodeValue → Graph → outcome nodeValue.

(** [func Linear(g *ag.Graph, w, x ag.Node) ag.Node] *)
Definition Linear (w x : nodeValue) (g : Graph) : outcome nodeValue :=
  Mul w x g.

(** The loop of [Affine], [for i := 3; i < len(xs)-1; i += 2], on what is
    left of [xs] from index [i] on. *)
Fixpoint affinePairs (rest : list nodeValue) (y : nodeValue) (g : Graph)
  : outcome nodeValue :=
  match rest with
  | w :: x :: rest =>
      match x with
      | Some _ =>
          bind (Linear w x g) (λ g wx,
          bind (Add y wx g) (λ g y,
          affinePairs rest y g))
      | None => affinePairs rest y g
      end
  | _ => Returned g y
  end.

(** [func Affine(g *ag.Graph, xs ...ag.Node) ag.Node] *)
Definition Affine (xs : list nodeValue) (g : Graph) : outcome nodeValue :=
  if decide (len xs `mod` 2 = 0) then Panicked g
  else
    match index xs 2 with
    | None => Panicked g
    | Some x =>
        match index xs 1 with
        | None => Panicked g
        | Some w =>
            match index xs 0 with
            | None => Panicked g
            | Some b =>
                bind (Linear w x g) (λ g wx,
                bind (Add b wx g) (λ g y,
                affinePairs (drop 3 xs) y g))
            end
        end
    end.

(** X19.  [Affine] panics before it touches the graph when it is given an
    even number of nodes, and also when it is given one node: a bias alone
    passes the parity check and [xs[2]] is out of range. *)
Theorem Affine_panics_on_even_and_on_one (xs : list nodeValue) (g : Graph) :
  len xs `mod` 2 = 0 ∨ length xs = 1%nat →
  Affine xs g = Panicked g.
Proof.
  intros [Heven|Hone]; unfold Affine.
  - by rewrite decide_True.
  - by destruct xs as [|b [|w xs]].
Qed.

Lemma affinePairs_skips_nil (n : nat) :
  ∀ (rest tail : list nodeValue) (w y : nodeValue) (g : Graph),
    length rest = (2 * n)%nat →
    affinePairs (rest ++ w :: None :: tail) y g =
    affinePairs (rest ++ tail) y g.
Proof.
  induction n as [|n IH]; intros rest tail w y g Hlen.
  - destruct rest; [|done]. simpl. by destruct tail as [|? [|? ?]].
  - destruct rest as [|w0 [|x0 rest]]; try (simpl in Hlen; lia).
    simpl. destruct x0 as [x0|].
    + destruct (Linear w0 (Some x0) g) as [g1 wx|g1]; simpl; [|done].
      destruct (Add y wx g1) as [g2 y2|g2]; simpl; [|done].
      apply IH. simpl in Hlen. lia.
    + apply IH. simpl in Hlen. lia.
Qed.

(** X20.  After the first pair, a pair whose [x] is [nil] contributes
    nothing: for a bias followed by one pair or more, inserting a pair
    [w, nil] at a pair boundary changes neither what [Affine] returns nor
    what it does to the graph. *)
Theorem Affine_ignores_later_pair_with_nil
    (b w1 x1 w : nodeValue) (pairs tail : list nodeValue) (g : Graph)
    (n : nat) :
  length pairs = (2 * n)%nat →
  len tail `mod` 2 = 0 →
  Affine (b :: w1 :: x1 :: pairs ++ w :: None :: tail) g =
  Affine (b :: w1 :: x1 :: pairs ++ tail) g.
Proof.
  intros Hlen Htail. unfold Affine, len. simpl.
  rewrite !length_app. simpl.
  assert (H1 : Z.of_nat (S (S (S (length pairs + S (S (length tail)))))) `mod` 2
               ≠ 0).
  { unfold len in Htail. rewrite Hlen. Z.div_mod_to_equations. lia. }
  assert (H2 : Z.of_nat (S (S (S (length pairs + length tail)))) `mod` 2 ≠ 0).
  { unfold len in Htail. rewrite Hlen. Z.div_mod_to_equations. lia. }
  rewrite !decide_False by done.
  destruct (Linear w1 x1 g) as [g1 wx|g1]; simpl; [|done].
  destruct (Add b wx g1) as [g2 y|g2]; simpl; [|done].
  by apply (affinePairs_skips_nil n).
Qed.

End Affine.

End Affine.

(** * Vectors taken apart: [SeparateVec] and [SplitVec]

    [x.Value().Size()], [g.AtVec] and [g.Concat] belong to files that are
    not at hand and are parameters: the size of a node's value, and two
    graph operations that return a node or panic.  The quotient
    [int(math.Ceil(float64(a) / float64(b)))] is computed in floating point
    and is a parameter as well; a property that needs its value says
    which value it assumes.  Indices are of Go's type [int] and, like the
    identities, written as unbounded integers. *)

Module Split.

Section Split.

Context {Matrix Function GradValue : Type}.

Local Abbreviation Graph := (@Graph Matrix Function GradValue).
Local Abbreviation outcome := (@outcome Matrix Function GradValue).
Local Abbreviation Node := (@Node Matrix Function GradValue).

Variable Size : Node → Z.
Variable Concat : list Node → Graph → outcome Node.
Variable ceilQuotient : Z → Z → Z.

Section Reading.

Variable AtVec : Node → Z → Graph → outcome Node.

(** The loop [for i := 0; i < length; i++ { tmp[i] = g.AtVec(x, ...) }]
    over the indices it passes to [AtVec], in order. *)
Fixpoint atVecs (x : Node) (indices : list Z) (g : Graph)
  : outcome (list Node) :=
  match indices with
  | [] => Returned g []
  | i :: indices =>
      bind (AtVec x i g) (λ g y,
      bind (atVecs x indices g) (λ g ys,
      Returned g (y :: ys)))
  end.

(** [func SeparateVec(g *ag.Graph, x ag.Node) []ag.Node]; [make] panics on
    a negative length. *)
Definition SeparateVec (x : Node) (g : Graph) : outcome (list Node) :=
  let size := Size x in
  if decide (size < 0) then Panicked g
  else atVecs x (seqZ 0 size) g.

(** [length] in the body of the loop of [SplitVec]. *)
Definition chunkLength (size lastSize chunks c : Z) : Z :=
  if decide (c = chunks - 1 ∧ lastSize > 0) then lastSize else size.

(** The indices [i+c*size], for [i] from 0 up to [length], that the inner
    loop of [SplitVec] passes to [AtVec] for chunk [c]. *)
Definition chunkIndices (size lastSize chunks c : Z) : list Z :=
  (λ i, i + c * size) <$> seqZ 0 (chunkLength size lastSize chunks c).

(** The loop [for c := 0; c < chunks; c++] of [SplitVec] over the values of
    [c] still to come. *)
Fixpoint splitChunks (x : Node) (size lastSize chunks : Z) (cs : list Z)
    (g : Graph) : outcome (list Node) :=
  match cs with
  | [] => Returned g []
  | c :: cs =>
      if decide (chunkLength size lastSize chunks c < 0) then Panicked g
      else
        bind (atVecs x (chunkIndices size lastSize chunks c) g) (λ g tmp,
        bind (Concat tmp g) (λ g y,
        bind (splitChunks x size lastSize chunks cs g) (λ g ys,
        Returned g (y :: ys))))
  end.

(** [func SplitVec(g *ag.Graph, x ag.Node, chunks int) []ag.Node].  The
    remainder by zero panics, and so does [make] on a negative length. *)
Definition SplitVec (x : Node) (chunks : Z) (g : Graph)
  : outcome (list Node) :=
  let size := ceilQuotient (Size x) chunks in
  if decide (chunks = 0) then Panicked g
  else
    let lastSize := Z.rem (Size x) chunks in
    if decide (chunks < 0) then Panicked g
    else splitChunks x size lastSize chunks (seqZ 0 chunks) g.

(** All the indices that [SplitVec] passes to [AtVec], chunk after
    chunk. *)
Definition indicesRead (size lastSize chunks : Z) : list Z :=
  concat (chunkIndices size lastSize chunks <$> seqZ 0 chunks).

Lemma atVecs_panics (x : Node) (bound : Z) :
  (∀ i g, bound ≤ i → ∃ g', AtVec x i g = Panicked g') →
  ∀ indices g,
    Exists (λ i, bound ≤ i) indices →
    ∃ g', atVecs x indices g = Panicked g'.
Proof.
  intros Hpanic indices. induction indices as [|i indices IH]; intros g Hex.
  - by apply Exists_nil in Hex.
  - simpl. destruct (decide (bound ≤ i)) as [Hi|Hi].
    + destruct (Hpanic i g Hi) as [g' ->]. by exists g'.
    + apply Exists_cons in Hex as [?|Hex]; [done|].
      destruct (AtVec x i g) as [g1 y|g1]; simpl; [|by exists g1].
      destruct (IH g1 Hex) as [g' ->]. by exists g'.
Qed.

Lemma splitChunks_panics (x : Node) (size lastSize chunks bound : Z) :
  (∀ i g, bound ≤ i → ∃ g', AtVec x i g = Panicked g') →
  ∀ cs g,
    Exists (λ c, Exists (λ i, bound ≤ i)
                   (chunkIndices size lastSize chunks c)) cs →
    ∃ g', splitChunks x size lastSize chunks cs g = Panicked g'.
Proof.
  intros Hpanic cs. induction cs as [|c cs IH]; intros g Hex.
  - by apply Exists_nil in Hex.
  - simpl. case_decide; [by exists g|].
    destruct (decide (Exists (λ i, bound ≤ i)
                        (chunkIndices size lastSize chunks c))) as [Hc|Hc].
    + destruct (atVecs_panics x bound Hpanic _ g Hc) as [g' ->].
      by exists g'.
    + apply Exists_cons in Hex as [?|Hex]; [done|].
      destruct (atVecs x _ g) as [g1 tmp|g1]; simpl; [|by exists g1].
      destruct (Concat tmp g1) as [g2 y|g2]; simpl; [|by exists g2].
      destruct (IH g2 Hex) as [g' ->]. by exists g'.
Qed.

Lemma shifted_seqZ (m n : Z) : (λ i, i + m) <$> seqZ 0 n = seqZ m n.
Proof.
  transitivity (Z.add m <$> seqZ 0 n).
  - apply list_fmap_ext. intros _ i _. lia.
  - by rewrite fmap_add_seqZ, Z.add_0_r.
Qed.

Lemma chunkIndices_full (size lastSize chunks c : Z) :
  c ≠ chunks - 1 ∨ lastSize ≤ 0 →
  chunkIndices size lastSize chunks c = seqZ (c * size) size.
Proof.
  intros Hc. unfold chunkIndices, chunkLength.
  rewrite decide_False by lia. apply shifted_seqZ.
Qed.

Lemma chunkIndices_last (size lastSize chunks : Z) :
  chunkIndices size lastSize chunks (chunks - 1) =
  seqZ ((chunks - 1) * size)
       (chunkLength size lastSize chunks (chunks - 1)).
Proof.
  unfold chunkIndices. apply shifted_seqZ.
Qed.

Lemma full_chunks (size lastSize chunks : Z) (n : nat) :
  0 ≤ size →
  Z.of_nat n ≤ chunks - 1 →
  concat (chunkIndices size lastSize chunks <$> seqZ 0 (Z.of_nat n)) =
  seqZ 0 (Z.of_nat n * size).
Proof.
  intros Hsize. induction n as [|n IH]; intros Hn; [done|].
  rewrite seqZ_S, fmap_app, concat_app, IH by lia. simpl.
  rewrite app_nil_r, chunkIndices_full by lia.
  replace (Z.of_nat (S n) * size) with (Z.of_nat n * size + size) by lia.
  rewrite seqZ_app by nia. done.
Qed.

(** X22.  The indices that [SplitVec] passes to [AtVec] are consecutive
    from 0: [chunks - 1] chunks of [size] indices each and then a last
    chunk of [lastSize] indices, or of [size] when [lastSize] is 0. *)
Theorem SplitVec_reads_consecutive_indices (size lastSize chunks : Z) :
  0 < chunks → 0 ≤ size → 0 ≤ lastSize →
  indicesRead size lastSize chunks =
  seqZ 0 ((chunks - 1) * size +
          (if decide (lastSize > 0) then lastSize else size)).
Proof.
  intros Hchunks Hsize Hlast. unfold indicesRead.
  replace chunks with (Z.of_nat (S (Z.to_nat (chunks - 1)))) at 2 by lia.
  rewrite seqZ_S, fmap_app, concat_app, full_chunks by lia. simpl.
  rewrite app_nil_r, Z2Nat.id, Z.add_0_l by lia.
  rewrite chunkIndices_last.
  assert (Hlen : chunkLength size lastSize chunks (chunks - 1) =
                 if decide (lastSize > 0) then lastSize else size).
  { unfold chunkLength. repeat case_decide; lia. }
  rewrite Hlen.
  rewrite seqZ_app; [done|nia|case_decide; lia].
Qed.

(** X23.  [SplitVec] panics without touching the graph when [chunks] is 0
    or negative. *)
Theorem SplitVec_panics_without_chunks (x : Node) (chunks : Z) (g : Graph) :
  chunks ≤ 0 → SplitVec x chunks g = Panicked g.
Proof.
  intros Hchunks. unfold SplitVec.
  destruct (decide (chunks = 0)); [done|]. by rewrite decide_True by lia.
Qed.

(** X24.  When the size of [x] is no multiple of [chunks], the quotient is
    below [chunks - 1] and [AtVec] panics at an index from the size on,
    [SplitVec] panics: the last chunk reaches past the end of [x]. *)
Theorem SplitVec_reads_past_the_end (x : Node) (chunks : Z) (g : Graph) :
  0 < chunks → 0 ≤ Size x →
  Size x `mod` chunks ≠ 0 →
  Size x `div` chunks < chunks - 1 →
  ceilQuotient (Size x) chunks = Size x `div` chunks + 1 →
  (∀ i g, Size x ≤ i → ∃ g', AtVec x i g = Panicked g') →
  ∃ g', SplitVec x chunks g = Panicked g'.
Proof.
  intros Hchunks Hsize Hmod Hdiv Hceil Hpanic. unfold SplitVec.
  rewrite !decide_False by lia.
  apply (splitChunks_panics _ _ _ _ (Size x) Hpanic).
  apply Exists_exists. exists (chunks - 1). split.
  { apply elem_of_seqZ. lia. }
  rewrite chunkIndices_last. apply Exists_exists.
  rewrite Z.rem_mod_nonneg by lia.
  pose proof (Z.mod_pos_bound (Size x) chunks Hchunks) as Hr.
  pose proof (Z.div_mod (Size x) chunks ltac:(lia)) as Hqr.
  assert (Hlen : chunkLength (ceilQuotient (Size x) chunks)
                   (Size x `mod` chunks) chunks (chunks - 1) =
                 Size x `mod` chunks).
  { unfold chunkLength. rewrite decide_True; [done|lia]. }
  rewrite Hlen, Hceil.
  exists ((chunks - 1) * (Size x `div` chunks + 1) +
          Size x `mod` chunks - 1).
  split; [apply elem_of_seqZ; lia|]. nia.
Qed.

(** X25.  With one chunk, and the quotient of the size by 1 the size,
    [SplitVec] is [SeparateVec] followed by one [Concat] of all the
    elements. *)
Theorem SplitVec_in_one_chunk (x : Node) (g : Graph) :
  ceilQuotient (Size x) 1 = Size x →
  SplitVec x 1 g =
  bind (SeparateVec x g) (λ g ys,
  bind (Concat ys g) (λ g y,
  Returned g [y])).
Proof.
  intros Hceil. unfold SplitVec, SeparateVec. simpl.
  rewrite Hceil, Z.rem_1_r.
  assert (Hlen : chunkLength (Size x) 0 1 0 = Size x).
  { unfold chunkLength. rewrite decide_False; [done|lia]. }
  change (Z.of_nat 0 + 0) with 0.
  rewrite Hlen. case_decide; [done|].
  rewrite chunkIndices_full by lia. simpl.
  destruct (atVecs x _ g) as [g1 tmp|g1]; simpl; [|done].
  by destruct (Concat tmp g1).
Qed.

End Reading.

Lemma atVecs_ext (AtVec1 AtVec2 : Node → Z → Graph → outcome Node)
    (x : Node) (indices : list Z) :
  Forall (λ i, ∀ g, AtVec1 x i g = AtVec2 x i g) indices →
  ∀ g, atVecs AtVec1 x indices g = atVecs AtVec2 x indices g.
Proof.
  induction 1 as [|i indices Hi _ IH]; intros g; [done|].
  simpl. rewrite Hi. destruct (AtVec2 x i g) as [g1 y|g1]; simpl; [|done].
  by rewrite IH.
Qed.

Lemma splitChunks_ext (AtVec1 AtVec2 : Node → Z → Graph → outcome Node)
    (x : Node) (size lastSize chunks : Z) (cs : list Z) :
  Forall (λ c, Forall (λ i, ∀ g, AtVec1 x i g = AtVec2 x i g)
                 (chunkIndices size lastSize chunks c)) cs →
  ∀ g, splitChunks AtVec1 x size lastSize chunks cs g =
       splitChunks AtVec2 x size lastSize chunks cs g.
Proof.
  induction 1 as [|c cs Hc _ IH]; intros g; [done|].
  simpl. case_decide; [done|].
  rewrite (atVecs_ext AtVec1 AtVec2 x _ Hc).
  destruct (atVecs AtVec2 x _ g) as [g1 tmp|g1]; simpl; [|done].
  destruct (Concat tmp g1) as [g2 y|g2]; simpl; [|done].
  by rewrite IH.
Qed.

(** X21.  When the size of [x] is no multiple of [chunks] and the quotient
    is [chunks] or more, [SplitVec] never asks for the last element of
    [x]: what it returns and does to the graph is the same for any two
    [AtVec] that differ at the last index only. *)
Theorem SplitVec_never_reads_the_last_element
    (AtVec1 AtVec2 : Node → Z → Graph → outcome Node)
    (x : Node) (chunks : Z) (g : Graph) :
  0 < chunks → 0 ≤ Size x →
  Size x `mod` chunks ≠ 0 →
  chunks ≤ Size x `div` chunks →
  ceilQuotient (Size x) chunks = Size x `div` chunks + 1 →
  (∀ i g, i ≠ Size x - 1 → AtVec1 x i g = AtVec2 x i g) →
  SplitVec AtVec1 x chunks g = SplitVec AtVec2 x chunks g.
Proof.
  intros Hchunks Hsize Hmod Hdiv Hceil Hagree. unfold SplitVec.
  rewrite !decide_False by lia.
  apply splitChunks_ext.
  apply Forall_forall. intros c Hc. apply elem_of_seqZ in Hc.
  apply Forall_forall. intros i Hi g'. apply Hagree.
  rewrite Z.rem_mod_nonneg in Hi by lia.
  pose proof (Z.mod_pos_bound (Size x) chunks Hchunks) as Hr.
  pose proof (Z.div_mod (Size x) chunks ltac:(lia)) as Hqr.
  rewrite Hceil in Hi.
  destruct (decide (c = chunks - 1)) as [->|Hne].
  - rewrite chunkIndices_last in Hi.
    assert (Hlen : chunkLength (Size x `div` chunks + 1)
                     (Size x `mod` chunks) chunks (chunks - 1) =
                   Size x `mod` chunks).
    { unfold chunkLength. rewrite decide_True; [done|lia]. }
    rewrite Hlen in Hi. apply elem_of_seqZ in Hi. nia.
  - rewrite chunkIndices_full in Hi by lia.
    apply elem_of_seqZ in Hi. nia.
Qed.

End Split.

End Split.

(** * The further properties on worked inputs *)

Lemma sumDescendants_bounds_new_descendants_witness :
  ∃ g' op ni,
    sumDescendants ex_graph [ex_c; ex_d] =
      Some (descendantsTotal ex_graph [ex_c; ex_d]) ∧
    NewOperator ex_Forward ex_RequiresGrad 12 [ex_c; ex_d] ex_graph =
      Returned g' op ∧
    g_nodes g' !! length (g_nodes ex_graph) = Some ni ∧
    node ni = NOperator op ∧
    len (descendants ni) ≤ descendantsTotal ex_graph [ex_c; ex_d] + 1.
Proof.
  apply (sumDescendants_bounds_new_descendants
           ex_NewScalar ex_Forward ex_RequiresGrad
           ex_calls ex_graph ex_nodes 12 [ex_c; ex_d] ex_run_calls).
  repeat constructor; vm_compute; discriminate.
Defined.

Lemma descendants_are_the_dependency_closure_witness :
  0 ∈ [0; 1; 2; 3] ↔ dependsOn ex_calls 3 0.
Proof.
  exact (descendants_are_the_dependency_closure
           ex_NewScalar ex_Forward ex_RequiresGrad
           ex_calls ex_graph ex_nodes 3
           {| node := ex_d; depth := 0; descendants := [0; 1; 2; 3] |} 0
           ex_run_calls eq_refl).
Defined.

Lemma depth_at_most_later_records_witness :
  0 ≤ 2 ≤ len (g_nodes ex_graph) - 1 - 0 ∧
  g_maxDepth ex_graph + 1 ≤ len (g_nodes ex_graph).
Proof.
  exact (depth_at_most_later_records
           ex_NewScalar ex_Forward ex_RequiresGrad
           ex_calls ex_graph ex_nodes 0
           {| node := ex_a; depth := 2; descendants := [0] |}
           ex_run_calls eq_refl).
Defined.


Lemma panic_shifts_later_identities_witness :
  ∃ g1 g2 n ni,
    NewOperator ex_Forward ex_RequiresGrad 12 [ex_stray] ex_graph =
      Panicked g1 ∧
    exec ex_NewScalar ex_Forward ex_RequiresGrad (CallNewVariable 9 true) g1 =
      Returned g2 n ∧
    g_nodes g2 !! length (g_nodes ex_graph) = Some ni ∧
    node ni = n ∧
    Id n = len (g_nodes ex_graph) + 1 ∧
    (∀ f', ∃ g3, NewOperator ex_Forward ex_RequiresGrad f' [n] g2 =
                 Panicked g3).
Proof.
  apply (panic_shifts_later_identities
           ex_NewScalar ex_Forward ex_RequiresGrad
           ex_calls ex_graph ex_nodes 12 [ex_stray] (CallNewVariable 9 true)
           ex_run_calls).
  - apply Exists_cons_hd. vm_compute. discriminate.
  - reflexivity.
Defined.

Lemma call_raises_depths_by_at_most_one_witness :
  g_maxDepth ex_graph2 ≤ g_maxDepth (ex_graph_of (ex_leaves ++ [CallNewOperator 10 [ex_a; ex_b]])) ≤
    g_maxDepth ex_graph2 + 1.
Proof.
  exact (proj1 (call_raises_depths_by_at_most_one
                  ex_NewScalar ex_Forward ex_RequiresGrad
                  ex_leaves ex_graph2
                  (ex_graph_of (ex_leaves ++ [CallNewOperator 10 [ex_a; ex_b]]))
                  ex_nodes2 (CallNewOperator 10 [ex_a; ex_b])
                  (NOperator {| o_id := 2; o_function := 10; o_value := 20;
                                o_grad := None; o_hasGrad := false;
                                o_requiresGrad := true |})
                  ex_run_leaves eq_refl)).
Defined.

Lemma NewOperator_depths_depend_on_operand_identities_witness :
  ∃ g1 op1 g2 op2,
    NewOperator ex_Forward ex_RequiresGrad 12 [ex_a; ex_c] ex_graph =
      Returned g1 op1 ∧
    NewOperator ex_Forward ex_RequiresGrad 13 [ex_c; ex_a; ex_c] ex_graph =
      Returned g2 op2 ∧
    depth <$> g_nodes g1 = depth <$> g_nodes g2 ∧
    g_maxDepth g1 = g_maxDepth g2 ∧
    o_id op1 = o_id op2 ∧
    (∀ d, d ∈ descendantsAt g1 (o_id op1) ↔ d ∈ descendantsAt g2 (o_id op2)).
Proof.
  apply (NewOperator_depths_depend_on_operand_identities
           ex_NewScalar ex_Forward ex_RequiresGrad
           ex_calls ex_graph ex_nodes 12 13 [ex_a; ex_c] [ex_c; ex_a; ex_c]
           ex_run_calls).
  - repeat constructor; vm_compute; discriminate.
  - intros i. simpl. set_solver.
Defined.

Lemma operator_bucket_precedes_operand_bucket_witness :
  ∃ out no na i j bo ba,
    groupNodesByDepth ex_graph = Some out ∧
    g_nodes ex_graph !! length ex_leaves = Some no ∧
    index (g_nodes ex_graph) (Id ex_a) = Some na ∧
    out !! i = Some bo ∧ node no ∈ bo ∧
    out !! j = Some ba ∧ node na ∈ ba ∧
    (i < j)%nat.
Proof.
  apply (operator_bucket_precedes_operand_bucket
           ex_NewScalar ex_Forward ex_RequiresGrad
           ex_leaves [CallNewOperator 11 [ex_a; ex_c]] 10 [ex_a; ex_b]
           ex_graph ex_nodes ex_a ex_run_calls).
  apply list_elem_of_here.
Defined.

(** The bytes of "ab cd ef". *)
Definition ex_text : list ascii :=
  ascii_of_nat <$> [97; 98; 32; 99; 100; 32; 101; 102]%nat.

Lemma Before_holds_no_separator_witness :
  Str.Index (ascii_of_nat <$> [97; 98]%nat) [Str.space] = -1.
Proof.
  apply (Str.Before_holds_no_separator ex_text).
  - discriminate.
  - vm_compute. reflexivity.
Defined.

Definition ex_Data (m : list Z) : list Z := m.
Definition ex_Size (m : list Z) : Z := len m.
Definition ex_SetData (m data : list Z) : list Z := data.
Definition ex_NewVecDense (data : list Z) : list Z := data.

Lemma LoadParamsVector_gives_each_param_its_segment_witness :
  ∃ loaded,
    Model.LoadParamsVector ex_Data ex_Size ex_SetData
      [[0; 0]; [0]] (ex_NewVecDense (concat [[1; 2]; [3]] ++ [4; 5])) =
      Some loaded ∧
    ex_Data <$> loaded = [[1; 2]; [3]].
Proof.
  apply (Model.LoadParamsVector_gives_each_param_its_segment
           ex_Data ex_Size ex_SetData ex_NewVecDense).
  - reflexivity.
  - reflexivity.
  - repeat constructor.
Defined.

Lemma LoadParamsVector_of_DumpParamsVector_witness :
  ∃ loaded,
    Model.LoadParamsVector ex_Data ex_Size ex_SetData [[1; 2]; [3]]
      (Model.DumpParamsVector ex_Data ex_NewVecDense [[1; 2]; [3]]) =
      Some loaded ∧
    ex_Data <$> loaded = ex_Data <$> [[1; 2]; [3]].
Proof.
  apply (Model.LoadParamsVector_of_DumpParamsVector
           ex_Data ex_Size ex_SetData ex_NewVecDense).
  - reflexivity.
  - reflexivity.
  - repeat constructor.
Defined.

(** Stand-ins for [g.Add] and [g.Mul] that leave the graph alone and hand
    back their first operand. *)
Definition ex_op (a b : @Affine.nodeValue Z Z Z) (g : @Graph Z Z Z)
  : outcome Affine.nodeValue :=
  Returned g a.

Lemma Affine_panics_on_even_and_on_one_witness :
  Affine.Affine ex_op ex_op [Some ex_a] ex_graph = Panicked ex_graph.
Proof.
  apply (Affine.Affine_panics_on_even_and_on_one ex_op ex_op).
  right. reflexivity.
Defined.

Lemma Affine_ignores_later_pair_with_nil_witness :
  Affine.Affine ex_op ex_op
    (Some ex_a :: Some ex_b :: Some ex_c :: [] ++ Some ex_d :: None :: [])
    ex_graph =
  Affine.Affine ex_op ex_op
    (Some ex_a :: Some ex_b :: Some ex_c :: [] ++ []) ex_graph.
Proof.
  apply (Affine.Affine_ignores_later_pair_with_nil ex_op ex_op) with (n := 0%nat).
  - reflexivity.
  - reflexivity.
Defined.

(** A vector of 5 elements behind [ex_a] and one of 7 behind [ex_b]; the
    quotient rounded up in whole numbers; a [Concat] and an [AtVec] that
    leave the graph alone, the second panicking from index [bound] on. *)
Definition ex_vecSize (n : @Node Z Z Z) : Z := 5 + 2 * Id n.
Definition ex_ceilQuotient (a b : Z) : Z := (a + b - 1) `div` b.
Definition ex_Concat (ys : list (@Node Z Z Z)) (g : @Graph Z Z Z)
  : outcome (@Node Z Z Z) :=
  Returned g ex_a.
Definition ex_AtVec (bound : Z) (x : @Node Z Z Z) (i : Z) (g : @Graph Z Z Z)
  : outcome (@Node Z Z Z) :=
  if decide (bound ≤ i) then Panicked g else Returned g x.

Lemma SplitVec_never_reads_the_last_element_witness :
  Split.SplitVec ex_vecSize ex_Concat ex_ceilQuotient (ex_AtVec 4)
    ex_a 2 ex_graph =
  Split.SplitVec ex_vecSize ex_Concat ex_ceilQuotient (ex_AtVec 5)
    ex_a 2 ex_graph.
Proof.
  apply (Split.SplitVec_never_reads_the_last_element
           ex_vecSize ex_Concat ex_ceilQuotient (ex_AtVec 4) (ex_AtVec 5)
           ex_a 2 ex_graph).
  - reflexivity.
  - discriminate.
  - discriminate.
  - discriminate.
  - reflexivity.
  - intros i g Hi. change (ex_vecSize ex_a) with 5 in Hi.
    unfold ex_AtVec. repeat case_decide; (reflexivity || lia).
Defined.

Lemma SplitVec_reads_consecutive_indices_witness :
  Split.indicesRead 3 1 2 = seqZ 0 ((2 - 1) * 3 + 1).
Proof.
  apply (Split.SplitVec_reads_consecutive_indices 3 1 2).
  - reflexivity.
  - discriminate.
  - discriminate.
Defined.

Lemma SplitVec_panics_without_chunks_witness :
  Split.SplitVec ex_vecSize ex_Concat ex_ceilQuotient (ex_AtVec 5)
    ex_a 0 ex_graph = Panicked ex_graph.
Proof.
  apply (Split.SplitVec_panics_without_chunks
           ex_vecSize ex_Concat ex_ceilQuotient (ex_AtVec 5) ex_a 0 ex_graph).
  discriminate.
Defined.

Lemma SplitVec_reads_past_the_end_witness :
  ∃ g', Split.SplitVec ex_vecSize ex_Concat ex_ceilQuotient (ex_AtVec 7)
          ex_b 4 ex_graph = Panicked g'.
Proof.
  apply (Split.SplitVec_reads_past_the_end
           ex_vecSize ex_Concat ex_ceilQuotient (ex_AtVec 7) ex_b 4 ex_graph).
  - reflexivity.
  - discriminate.
  - discriminate.
  - reflexivity.
  - reflexivity.
  - intros i g Hi. change (ex_vecSize ex_b) with 7 in Hi.
    exists g. unfold ex_AtVec. case_decide; (reflexivity || lia).
Defined.

Lemma SplitVec_in_one_chunk_witness :
  Split.SplitVec ex_vecSize ex_Concat ex_ceilQuotient (ex_AtVec 5)
    ex_a 1 ex_graph =
  bind (Split.SeparateVec ex_vecSize (ex_AtVec 5) ex_a ex_graph) (λ g ys,
  bind (ex_Concat ys g) (λ g y,
  Returned g [y])).
Proof.
  apply (Split.SplitVec_in_one_chunk
           ex_vecSize ex_Concat ex_ceilQuotient (ex_AtVec 5) ex_a ex_graph).
  reflexivity.
Defined.
